(** * The wizard controller of the TEEOS Raspberry Pi image builder front end

    A shallow embedding of [frontend_reactjs/src/App.js]: the two
    configuration helpers ([parseJsonEnv], [safeUrl]), the construction of
    the step list ([steps]) and the navigation and progress logic of the
    [App] component ([activeIndex], [activeStep], the reconciling effect,
    [progressPct], [goNext], [goBack], [toggleComplete]).

    JavaScript values the program manipulates are modelled as follows.
    - A value of [process.env] is [option string]: [None] is [undefined].
    - Numbers are IEEE-754 binary64 values, through the executable
      specification of the Standard Library ([spec_float]); array indices,
      which the program only adds to and compares, are integers of [Z].
    - An exception is an explicit [Throw] result; [try]/[catch] is
      [try_catch].
    - [JSON.parse] and the [URL] constructor belong to the host platform,
      not to the repository: they are the two members of the class [Host].
    - The [Set] of completed identifiers is a [gset string]: the program
      only uses [has], [add], [delete] and [size]. *)

From Stdlib Require Import ZArith String Ascii List Bool Lia SpecFloat.
From stdpp Require Import base gmap sets list strings.

Set Warnings "-clear-no-such-hyp".

(** ** JavaScript values, completions and numbers *)

Module JS.

Inductive error := SyntaxError | TypeError.

Inductive completion (A : Type) :=
| Normal (a : A)
| Throw (e : error).
Arguments Normal {A} a.
Arguments Throw {A} e.

#[global] Instance completion_ret : MRet completion := fun A a => Normal a.

#[global] Instance completion_bind : MBind completion :=
  fun A B f m => match m with Normal a => f a | Throw e => Throw e end.

(** [try { body } catch { handler }] *)
Definition try_catch {A} (body : completion A) (handler : error -> completion A)
  : completion A :=
  match body with
  | Normal a => Normal a
  | Throw e => handler e
  end.

(** Binary64 numbers. *)
Definition prec : Z := 53.
Definition emax : Z := 1024.

Definition number_of_Z (z : Z) : spec_float := binary_normalize prec emax z 0 false.
Definition number_of_nat (n : nat) : spec_float := number_of_Z (Z.of_nat n).

Definition div (x y : spec_float) : spec_float := SFdiv prec emax x y.
Definition mul (x y : spec_float) : spec_float := SFmul prec emax x y.

#[global] Instance spec_float_eq_dec : EqDecision spec_float.
Proof. solve_decision. Defined.

(** [Math.round]: the integral number closest to [x], a tie going towards
    +Infinity; NaN, the infinities and the zeros are returned as they are.
    A finite [x] is [(-1)^s * m * 2^e]: with [0 <= e] it is integral
    already, otherwise the result is [floor (x + 1/2)], computed on
    integers, and a result that is zero keeps the sign of [x]. *)
Definition Math_round (x : spec_float) : spec_float :=
  match x with
  | S754_finite s m e =>
      if (0 <=? e)%Z then x
      else binary_normalize prec emax
             ((2 * cond_Zopp s (Zpos m) + 2 ^ (- e)) / 2 ^ (- e + 1))%Z 0 s
  | _ => x
  end.

(** The values [JSON.parse] can return.  The properties of an object are
    kept in source order. *)
#[warnings="-register-all"]
Inductive value :=
| Null
| Boolean (b : bool)
| Number (x : spec_float)
| Str (s : string)
| Array (items : list value)
| Object (props : list (string * value)).

(** [ToBoolean]; [None] stands for [undefined]. *)
Definition truthy_string (s : string) : bool := negb (s =? "")%string.

Definition truthy (v : option value) : bool :=
  match v with
  | None => false
  | Some Null => false
  | Some (Boolean b) => b
  | Some (Number (S754_zero _)) => false
  | Some (Number S754_nan) => false
  | Some (Number _) => true
  | Some (Str s) => truthy_string s
  | Some (Array _) => true
  | Some (Object _) => true
  end.

(** The property read [v.key], for a [key] that names no built-in member
    (neither [length], an index nor a prototype method), as
    [showAdvanced] below.  Reading a property of [null] throws a
    [TypeError]; a primitive or an array has no such property; in an
    object a later duplicate of a key has overwritten the earlier ones. *)
Definition get (v : value) (key : string) : completion (option value) :=
  match v with
  | Null => Throw TypeError
  | Object props =>
      Normal (snd <$> List.find (fun kv => (fst kv =? key)%string) (rev props))
  | _ => Normal None
  end.

(** [xs.filter(Boolean)] on an array whose entries are objects or [null]. *)
Fixpoint filter_Boolean {A} (xs : list (option A)) : list A :=
  match xs with
  | [] => []
  | Some x :: xs' => x :: filter_Boolean xs'
  | None :: xs' => filter_Boolean xs'
  end.

(** [xs.findIndex(p)]: the index of the first entry satisfying [p], and
    [-1] when there is none. *)
Fixpoint findIndex_from {A} (p : A -> bool) (xs : list A) (k : Z) : Z :=
  match xs with
  | [] => (-1)%Z
  | x :: xs' => if p x then k else findIndex_from p xs' (k + 1)%Z
  end.

Definition findIndex {A} (p : A -> bool) (xs : list A) : Z := findIndex_from p xs 0.

(** [xs[i]]: [undefined] outside of the array, also at a negative [i]. *)
Definition at_index {A} (xs : list A) (i : Z) : option A :=
  if (i <? 0)%Z then None else xs !! Z.to_nat i.

(** [s.toLowerCase()] on the letters A to Z.  No other character is
    mapped to one of the letters of ["true"], the only string a lowered
    value is compared with. *)
Definition lower_ascii (c : ascii) : ascii :=
  let n := nat_of_ascii c in
  if (65 <=? n)%nat && (n <=? 90)%nat then ascii_of_nat (n + 32) else c.

Fixpoint toLowerCase (s : string) : string :=
  match s with
  | EmptyString => EmptyString
  | String c s' => String (lower_ascii c) (toLowerCase s')
  end.

(** What the program needs from the platform.  [JSON_parse] throws on a
    text that is not JSON; [URL_new] is [new URL(value)], whose result the
    program discards and which throws on a string that is not an absolute
    URL. *)
Class Host := {
  JSON_parse : string -> completion value;
  URL_new : string -> completion unit
}.

End JS.

Import JS.

(** ** Configuration: [process.env] and the two helpers *)

Record Env := {
  REACT_APP_FEATURE_FLAGS : option string;
  REACT_APP_EXPERIMENTS_ENABLED : option string;
  REACT_APP_BACKEND_URL : option string;
  REACT_APP_API_BASE : option string;
  REACT_APP_WS_URL : option string;
  REACT_APP_FRONTEND_URL : option string
}.

(** [!envValue] on a value of the environment: [undefined] and the empty
    string are falsy. *)
Definition falsy_env (v : option string) : bool :=
  match v with
  | None => true
  | Some s => negb (truthy_string s)
  end.

(** [v || ""]; it is [v] itself when [v] is truthy. *)
Definition or_empty (v : option string) : string :=
  match v with
  | None => ""
  | Some s => if truthy_string s then s else ""
  end.

Section Configuration.
Context `{Host}.

(** App.js, lines 4-11. *)
Definition parseJsonEnv (envValue : option string) (fallback : value)
  : completion value :=
  try_catch
    (if falsy_env envValue then Normal fallback
     else JSON_parse (or_empty envValue))
    (fun _ => Normal fallback).

(** App.js, lines 13-24. *)
Definition safeUrl (value : option string) (fallback : string)
  : completion string :=
  if falsy_env value then Normal fallback
  else
    let url := or_empty value in
    try_catch (_ ← URL_new url; Normal url) (fun _ => Normal fallback).

(** A value of the environment that [safeUrl] keeps: a non-empty string
    on which the [URL] constructor does not throw. *)
Definition valid_url (value : option string) : bool :=
  match value with
  | None => false
  | Some s =>
      truthy_string s &&
      match URL_new s with Normal _ => true | Throw _ => false end
  end.

(** App.js, lines 36-40: the fallback is the empty object. *)
Definition featureFlags (env : Env) : completion value :=
  parseJsonEnv (REACT_APP_FEATURE_FLAGS env) (Object []).

End Configuration.

(** App.js, lines 42-44.  [String(x)] is [x] on a string. *)
Definition experimentsEnabled (env : Env) : bool :=
  (toLowerCase (or_empty (REACT_APP_EXPERIMENTS_ENABLED env)) =? "true")%string.

(** ** The step list *)

(** The body of a content section is markup the controller never looks
    into; the only body that depends on the configuration shows the
    configured WebSocket URL. *)
Inductive JSX :=
| Markup
| MarkupShowing (value : string).

Record ContentSection := { heading : string; body : JSX }.

Record Link := { label : string; href : string }.

Module Step.
Record t := mk {
  id : string;
  title : string;
  badge : option string;
  description : string;
  sections : list ContentSection;
  tips : list string;
  links : option (list Link)
}.
End Step.

Section Steps.
Context `{Host}.

(** App.js, lines 46-344.  The four URLs are read first; the flag
    [showAdvanced] is read while the fourth step is built, and being the
    only read that can throw it is written first here. *)
Definition steps (featureFlags : value) (experimentsEnabled : bool) (env : Env)
  : completion (list Step.t) :=
  backendUrl ← safeUrl (REACT_APP_BACKEND_URL env) "";
  apiBase ← safeUrl (REACT_APP_API_BASE env) "";
  wsUrl ← safeUrl (REACT_APP_WS_URL env) "";
  frontendUrl ← safeUrl (REACT_APP_FRONTEND_URL env) "";
  showAdvanced ← get featureFlags "showAdvanced";
  Normal
    [ Step.mk "overview" "Overview" (Some "Start")
        "What you’ll build and what you’ll need."
        [ {| heading := "Goal"; body := Markup |};
          {| heading := "Recommended prerequisites"; body := Markup |} ]
        [ "If you’re new to Pi imaging, read the “Flash & boot” step first so you know what the output should look like.";
          "Keep your microSD card reader handy; you’ll use it near the end." ]
        (Some (filter_Boolean
           [ if truthy_string frontendUrl
             then Some {| label := "Frontend URL"; href := frontendUrl |}
             else None;
             if truthy_string backendUrl
             then Some {| label := "Backend URL"; href := backendUrl |}
             else None ]));
      Step.mk "setup" "Set up environment" None
        "Prepare your build machine for image generation."
        [ {| heading := "Install base tools"; body := Markup |};
          {| heading := "Directory layout"; body := Markup |} ]
        [ "Avoid building on low-storage devices; compilation and artifacts can grow quickly." ]
        (Some (if truthy_string apiBase
               then [ {| label := "API Base"; href := apiBase |} ]
               else []));
      Step.mk "sources" "Get sources" None
        "Clone repositories and fetch dependencies."
        [ {| heading := "Clone the image builder repo"; body := Markup |};
          {| heading := "Sync dependencies"; body := Markup |} ]
        [ "If a fetch fails, retry after checking connectivity and proxy settings." ]
        None;
      Step.mk "configure" "Configure build" None
        "Select Pi 4 target options and TEEOS settings."
        ({| heading := "Choose target: Raspberry Pi 4"; body := Markup |} ::
         (if truthy showAdvanced || experimentsEnabled
          then [ {| heading := "Advanced options (optional)"; body := Markup |} ]
          else []))
        [ "If available, use a config preset for 'rpi4-teeos' to avoid manual mistakes." ]
        None;
      Step.mk "build" "Build image" (Some "Core")
        "Run the build and watch progress."
        [ {| heading := "Run the build command"; body := Markup |};
          {| heading := "Expected output"; body := Markup |} ]
        [ "First build can take a while. Avoid interrupting unless stuck for a long time." ]
        None;
      Step.mk "flash" "Flash & boot" None
        "Write the image to microSD and boot your Pi."
        [ {| heading := "Flash the image"; body := Markup |};
          {| heading := "Boot checklist"; body := Markup |} ]
        [ "If boot fails, confirm you used the right image and that the card is healthy." ]
        None;
      Step.mk "verify" "Verify TEEOS" (Some "Finish")
        "Confirm TEEOS services and hardware behavior."
        ({| heading := "Validate at runtime"; body := Markup |} ::
         (if truthy_string wsUrl
          then [ {| heading := "Optional: Live status endpoint";
                    body := MarkupShowing wsUrl |} ]
          else []))
        [ "Capture logs if you need support—include both boot logs and service logs." ]
        None ].

(** The step list of the component: the flags and the switch are read from
    the environment, then the list is built. *)
Definition App_steps (env : Env) : completion (list Step.t) :=
  flags ← featureFlags env;
  steps flags (experimentsEnabled env) env.

End Steps.

(** ** The wizard state and its operations *)

(** The two state cells of the component: [activeStepId] and [completed]. *)
Record WizardState := {
  activeStepId : string;
  completed : gset string
}.

(** App.js, lines 33-34. *)
Definition initialState : WizardState :=
  {| activeStepId := "overview"; completed := ∅ |}.

Definition setActiveStepId (newId : string) (st : WizardState) : WizardState :=
  {| activeStepId := newId; completed := completed st |}.

Definition setCompleted (next : gset string) (st : WizardState) : WizardState :=
  {| activeStepId := activeStepId st; completed := next |}.

(** The identifiers of a step list, in order. *)
Definition ids (steps : list Step.t) : list string := map Step.id steps.

(** [(s) => s.id === activeStepId] *)
Definition has_id (i : string) (s : Step.t) : bool := (Step.id s =? i)%string.

(** App.js, lines 346-349. *)
Definition activeIndex (steps : list Step.t) (st : WizardState) : Z :=
  Z.max 0 (findIndex (has_id (activeStepId st)) steps).

(** App.js, line 350: [steps[activeIndex] || steps[0]]; [None] is
    [undefined], which only an empty list gives. *)
Definition activeStep (steps : list Step.t) (st : WizardState) : option Step.t :=
  match at_index steps (activeIndex steps st) with
  | Some s => Some s
  | None => at_index steps 0
  end.

(** [steps[0]?.id || "overview"] *)
Definition fallbackId (steps : list Step.t) : string :=
  match at_index steps 0 with
  | Some s => if truthy_string (Step.id s) then Step.id s else "overview"
  | None => "overview"
  end.

(** App.js, lines 352-357: the effect that runs after a render in which
    [steps] or [activeStepId] has changed. *)
Definition reconcileActiveStep (steps : list Step.t) (st : WizardState)
  : WizardState :=
  if negb (existsb (has_id (activeStepId st)) steps)
  then setActiveStepId (fallbackId steps) st
  else st.

(** App.js, line 426: the click handler of the button of a step, called
    with the identifier of that step. *)
Definition selectStep (i : string) (st : WizardState) : WizardState :=
  setActiveStepId i st.

(** App.js, line 359: [Math.round((count / total) * 100)] on the size of
    the completion set and the length of the step list. *)
Definition percentage (count total : nat) : spec_float :=
  Math_round (mul (div (number_of_nat count) (number_of_nat total)) (number_of_Z 100)).

Definition progressPct (steps : list Step.t) (st : WizardState) : spec_float :=
  percentage (size (completed st)) (length steps).

(** App.js, lines 362-365. *)
Definition goNext (steps : list Step.t) (st : WizardState) : WizardState :=
  match at_index steps
          (Z.min (Z.of_nat (length steps) - 1) (activeIndex steps st + 1)) with
  | Some next => setActiveStepId (Step.id next) st
  | None => st
  end.

(** App.js, lines 368-371. *)
Definition goBack (steps : list Step.t) (st : WizardState) : WizardState :=
  match at_index steps (Z.max 0 (activeIndex steps st - 1)) with
  | Some prev => setActiveStepId (Step.id prev) st
  | None => st
  end.

(** App.js, lines 374-381.  Reading [activeStep.id] throws a [TypeError]
    when there is no active step. *)
Definition toggleComplete (steps : list Step.t) (st : WizardState)
  : completion WizardState :=
  match activeStep steps st with
  | None => Throw TypeError
  | Some a =>
      let prev := completed st in
      Normal (setCompleted
                (if decide (Step.id a ∈ prev)
                 then prev ∖ {[ Step.id a ]}
                 else prev ∪ {[ Step.id a ]})
                st)
  end.

(** The labels of all the resource links of a step list; a step without
    a [links] property has none. *)
Definition linkLabels (steps : list Step.t) : list string :=
  concat (map (fun s => map label (default [] (Step.links s))) steps).

(** The headings of the content sections of the step with identifier [i]. *)
Definition headingsOf (i : string) (steps : list Step.t) : list string :=
  concat (map (fun s => map heading (Step.sections s))
              (filter (fun s => Step.id s = i) steps)).

(** App.js, lines 524 and 534: the Back button is disabled on the first
    step and the Next button on the last one. *)
Definition backDisabled (steps : list Step.t) (st : WizardState) : bool :=
  (activeIndex steps st =? 0)%Z.

Definition nextDisabled (steps : list Step.t) (st : WizardState) : bool :=
  (activeIndex steps st =? Z.of_nat (length steps) - 1)%Z.

(** The states the interface reaches on a fixed step list: the effect runs
    after the first render, the button of a step passes the identifier of
    that step to [selectStep], and a handler that throws leaves no state. *)
Inductive reachable (steps : list Step.t) : WizardState -> Prop :=
| reach_mount : reachable steps (reconcileActiveStep steps initialState)
| reach_select st s :
    reachable steps st -> s ∈ steps ->
    reachable steps (reconcileActiveStep steps (selectStep (Step.id s) st))
| reach_next st : reachable steps st -> reachable steps (goNext steps st)
| reach_back st : reachable steps st -> reachable steps (goBack steps st)
| reach_toggle st st' :
    reachable steps st -> toggleComplete steps st = Normal st' ->
    reachable steps st'.

(** The stored identifier is one of the list, and so is every completed
    identifier. *)
Definition valid (steps : list Step.t) (st : WizardState) : Prop :=
  activeStepId st ∈ ids steps /\ completed st ⊆ list_to_set (ids steps).

(** The percentage [100 * count / total] in exact arithmetic, rounded to
    the nearest integer, a tie going up: what [progressPct] is compared
    with below. *)
Definition exactPct (count total : Z) : Z :=
  ((200 * count + total) / (2 * total))%Z.

(** ** A host to run the definitions on

    It parses the JSON texts of the three literals and of the empty
    object and array, and takes a string for an absolute URL when it
    starts with one of four schemes; it rejects everything else. *)
Definition sample_JSON_parse (s : string) : completion value :=
  if (s =? "null")%string then Normal Null
  else if (s =? "true")%string then Normal (Boolean true)
  else if (s =? "false")%string then Normal (Boolean false)
  else if (s =? "{}")%string then Normal (Object [])
  else if (s =? "[]")%string then Normal (Array [])
  else Throw SyntaxError.

Definition sample_URL_new (s : string) : completion unit :=
  if existsb (fun scheme => String.prefix scheme s)
       ["http://"; "https://"; "ws://"; "wss://"]
  then Normal tt
  else Throw TypeError.

Definition sample_host : Host :=
  {| JSON_parse := sample_JSON_parse; URL_new := sample_URL_new |}.

Definition no_env : Env :=
  {| REACT_APP_FEATURE_FLAGS := None;
     REACT_APP_EXPERIMENTS_ENABLED := None;
     REACT_APP_BACKEND_URL := None;
     REACT_APP_API_BASE := None;
     REACT_APP_WS_URL := None;
     REACT_APP_FRONTEND_URL := None |}.

(** An environment with a flag text that is not JSON and a front-end URL
    that is relative. *)
Definition malformed_env : Env :=
  {| REACT_APP_FEATURE_FLAGS := Some "{showAdvanced";
     REACT_APP_EXPERIMENTS_ENABLED := Some "yes";
     REACT_APP_BACKEND_URL := Some "https://backend.example";
     REACT_APP_API_BASE := None;
     REACT_APP_WS_URL := None;
     REACT_APP_FRONTEND_URL := Some "/dashboard" |}.

(** An environment whose flag text is the JSON literal [null]. *)
Definition null_flags_env : Env :=
  {| REACT_APP_FEATURE_FLAGS := Some "null";
     REACT_APP_EXPERIMENTS_ENABLED := None;
     REACT_APP_BACKEND_URL := None;
     REACT_APP_API_BASE := None;
     REACT_APP_WS_URL := None;
     REACT_APP_FRONTEND_URL := None |}.

(** The state in which every step of a list is completed. *)
Definition allCompleted (steps : list Step.t) (st : WizardState) : WizardState :=
  setCompleted (list_to_set (ids steps)) st.

(** The step list under the empty environment. *)
Definition default_steps : list Step.t :=
  match @App_steps sample_host no_env with
  | Normal l => l
  | Throw _ => []
  end.

(** ** The rendered view

    What the component hands to its markup (App.js, lines 383-550): the
    values computed for the top bar, for the button of each step, for the
    status card, for the card of the active step and for the footer.  Two
    more variables of the environment are read while rendering. *)

Record RenderEnv := {
  REACT_APP_NODE_ENV : option string;
  REACT_APP_ENABLE_SOURCE_MAPS : option string
}.

(** What the index box of a step shows: a check mark, or the position. *)
Inductive IndexMark :=
| CheckMark
| Position (n : Z).

Record StepItem := {
  item_key : string;
  item_isActive : bool;
  item_ariaCurrent : option string;
  item_index : IndexMark;
  item_title : string;
  item_badge : option string;
  item_description : string
}.

(** [step.badge ? step.badge : null] *)
Definition shown_badge (badge : option string) : option string :=
  match badge with
  | Some b => if truthy_string b then Some b else None
  | None => None
  end.

(** App.js, lines 417-441: the button of the step at index [idx]. *)
Definition renderStepItem (active : Step.t) (done_ids : gset string)
    (idx : nat) (step : Step.t) : StepItem :=
  let isActive := (Step.id step =? Step.id active)%string in
  let done := bool_decide (Step.id step ∈ done_ids) in
  {| item_key := Step.id step;
     item_isActive := isActive;
     item_ariaCurrent := if isActive then Some "step" else None;
     item_index := if done then CheckMark else Position (Z.of_nat idx + 1);
     item_title := Step.title step;
     item_badge := shown_badge (Step.badge step);
     item_description := Step.description step |}.

Record View := {
  pill_environment : string;
  pill_progress : spec_float;
  stepList : list StepItem;
  statusValue : nat * nat;
  progressbar_now : spec_float;
  progressbar_min : Z;
  progressbar_max : Z;
  footerNote : string;
  cardTitle : string;
  cardLead : string;
  toggleLabel : string;
  toggleClass : string;
  cardSections : list ContentSection;
  callout : option (list string);
  resources : option (list Link);
  back_disabled : bool;
  stepCounter : Z * nat;
  next_disabled : bool
}.

(** App.js, line 383; reading [activeStep.id] throws without an active
    step. *)
Definition isComplete (steps : list Step.t) (st : WizardState) : completion bool :=
  match activeStep steps st with
  | None => Throw TypeError
  | Some a => Normal (bool_decide (Step.id a ∈ completed st))
  end.

(** [xs?.length ? xs : null]: a block is rendered for a list that is
    there and not empty. *)
Definition shown_list {A} (xs : option (list A)) : option (list A) :=
  match xs with
  | Some (x :: xs') => Some (x :: xs')
  | _ => None
  end.

(** App.js, lines 383-550. *)
Definition render (renv : RenderEnv) (steps : list Step.t) (st : WizardState)
  : completion View :=
  isComplete steps st ≫= fun complete : bool =>
  match activeStep steps st with
  | None => Throw TypeError
  | Some a =>
      Normal
        {| pill_environment :=
             if falsy_env (REACT_APP_NODE_ENV renv) then "development"
             else or_empty (REACT_APP_NODE_ENV renv);
           pill_progress := progressPct steps st;
           stepList := imap (renderStepItem a (completed st)) steps;
           statusValue := (size (completed st), length steps);
           progressbar_now := progressPct steps st;
           progressbar_min := 0;
           progressbar_max := 100;
           footerNote :=
             if falsy_env (REACT_APP_ENABLE_SOURCE_MAPS renv)
             then "Source maps disabled" else "Source maps enabled";
           cardTitle := Step.title a;
           cardLead := Step.description a;
           toggleLabel := if complete then "Mark incomplete" else "Mark complete";
           toggleClass := if complete then "Btn BtnSecondary" else "Btn BtnPrimary";
           cardSections := Step.sections a;
           callout := shown_list (Some (Step.tips a));
           resources := shown_list (Step.links a);
           back_disabled := backDisabled steps st;
           stepCounter := (activeIndex steps st + 1, length steps)%Z;
           next_disabled := nextDisabled steps st |}
  end.

(** The component: the step list is built, then the view. *)
Definition App `{Host} (env : Env) (renv : RenderEnv) (st : WizardState)
  : completion View :=
  steps ← App_steps env;
  render renv steps st.

(** The fields of a step that no configuration value enters. *)
Definition staticFields (s : Step.t)
  : string * string * option string * string * list string :=
  (Step.id s, Step.title s, Step.badge s, Step.description s, Step.tips s).

(** The number of step buttons that show a check mark. *)
Definition checkMarks (items : list StepItem) : nat :=
  length (List.filter
            (fun it => match item_index it with CheckMark => true | Position _ => false end)
            items).

Definition no_renv : RenderEnv :=
  {| REACT_APP_NODE_ENV := None; REACT_APP_ENABLE_SOURCE_MAPS := None |}.

(** * Properties *)

(** ** Arrays: [findIndex], [some] and indexing *)

Section Arrays.
Context {A : Type}.
Implicit Types (p : A -> bool) (xs : list A).

Lemma findIndex_from_none p xs k :
  existsb p xs = false -> findIndex_from p xs k = (-1)%Z.
Proof.
  revert k; induction xs as [|x xs IH]; intros k Hex; [reflexivity|].
  cbn in Hex |- *. apply orb_false_iff in Hex as [Hx Hxs].
  rewrite Hx. now apply IH.
Qed.

(** The index found is that of the first entry satisfying [p]. *)
Lemma findIndex_from_some p xs k :
  existsb p xs = true ->
  exists (i : nat) (x : A),
    findIndex_from p xs k = (k + Z.of_nat i)%Z /\
    xs !! i = Some x /\ p x = true /\
    forall (j : nat) (y : A), (j < i)%nat -> xs !! j = Some y -> p y = false.
Proof.
  revert k; induction xs as [|x xs IH]; intros k Hex; [discriminate|].
  cbn in Hex |- *. destruct (p x) eqn:Hx.
  - exists 0%nat, x. repeat split; [lia|exact Hx|]. intros j y Hj; lia.
  - cbn in Hex. destruct (IH (k + 1)%Z Hex) as (i & y & Hi & Hl & Hp & Hfirst).
    exists (S i), y. repeat split; [lia|exact Hl|exact Hp|].
    intros [|j] z Hj Hz; cbn in Hz.
    + now inversion Hz; subst.
    + apply (Hfirst j); [lia|exact Hz].
Qed.

Lemma findIndex_range p xs :
  (-1 <= findIndex p xs < Z.of_nat (length xs))%Z.
Proof.
  unfold findIndex. destruct (existsb p xs) eqn:Hex.
  - destruct (findIndex_from_some p xs 0 Hex) as (i & x & -> & Hl & _).
    apply lookup_lt_Some in Hl. lia.
  - rewrite findIndex_from_none by exact Hex. lia.
Qed.

Lemma at_index_nat xs (i : nat) : at_index xs (Z.of_nat i) = xs !! i.
Proof.
  unfold at_index. destruct (Z.ltb_spec (Z.of_nat i) 0); [lia|].
  now rewrite Nat2Z.id.
Qed.

Lemma at_index_zero xs : at_index xs 0 = head xs.
Proof. now destruct xs. Qed.

Lemma at_index_outside xs i :
  (i < 0 \/ Z.of_nat (length xs) <= i)%Z -> at_index xs i = None.
Proof.
  intros Hi. unfold at_index. destruct (Z.ltb_spec i 0); [reflexivity|].
  apply lookup_ge_None. lia.
Qed.

Lemma at_index_inside xs i :
  (0 <= i < Z.of_nat (length xs))%Z -> exists x, at_index xs i = Some x.
Proof.
  intros Hi. unfold at_index. destruct (Z.ltb_spec i 0); [lia|].
  destruct (lookup_lt_is_Some_2 xs (Z.to_nat i)) as [x Hx]; [lia|]. eauto.
Qed.

Lemma at_index_elem_of xs i x : at_index xs i = Some x -> x ∈ xs.
Proof.
  unfold at_index. destruct (i <? 0)%Z; [discriminate|].
  apply list_elem_of_lookup_2.
Qed.

End Arrays.

(** ** Identifiers of a step list *)

Lemma has_id_true i s : has_id i s = true <-> Step.id s = i.
Proof. unfold has_id. apply String.eqb_eq. Qed.

Lemma some_has_id steps i :
  existsb (has_id i) steps = true <-> i ∈ ids steps.
Proof.
  unfold ids. rewrite existsb_exists, list_elem_of_fmap. split.
  - intros (s & Hin & Hs). exists s. apply has_id_true in Hs.
    split; [now symmetry|now apply list_elem_of_In].
  - intros (s & -> & Hin). exists s.
    split; [now apply list_elem_of_In|now apply has_id_true].
Qed.

Lemma some_has_id_false steps i :
  existsb (has_id i) steps = false <-> i ∉ ids steps.
Proof.
  rewrite <- some_has_id. destruct (existsb (has_id i) steps); split; congruence.
Qed.

(** With identifiers that are unique, looking the identifier of the step
    at index [i] up gives [i] back. *)
Lemma findIndex_unique steps (i : nat) s :
  NoDup (ids steps) -> steps !! i = Some s ->
  findIndex (has_id (Step.id s)) steps = Z.of_nat i.
Proof.
  intros Hnd Hs. unfold findIndex.
  assert (Hex : existsb (has_id (Step.id s)) steps = true).
  { apply some_has_id. unfold ids. apply list_elem_of_fmap. exists s.
    split; [reflexivity|]. eapply list_elem_of_lookup_2, Hs. }
  destruct (findIndex_from_some _ _ 0%Z Hex) as (j & x & -> & Hx & Hp & _).
  apply has_id_true in Hp.
  assert (j = i); [|subst; lia].
  eapply NoDup_lookup; [exact Hnd| |].
  - unfold ids. rewrite list_lookup_fmap, Hx. cbn. now rewrite Hp.
  - unfold ids. now rewrite list_lookup_fmap, Hs.
Qed.

(** What [activeIndex] is, by cases on whether the stored identifier is in
    the list. *)
Lemma activeIndex_present steps st :
  activeStepId st ∈ ids steps ->
  exists (i : nat) s,
    activeIndex steps st = Z.of_nat i /\ steps !! i = Some s /\
    Step.id s = activeStepId st.
Proof.
  intros Hin. apply some_has_id in Hin.
  destruct (findIndex_from_some _ _ 0%Z Hin) as (i & s & Hi & Hs & Hp & _).
  exists i, s. unfold activeIndex, findIndex. rewrite Hi.
  repeat split; [lia|exact Hs|now apply has_id_true].
Qed.

Lemma activeIndex_absent steps st :
  activeStepId st ∉ ids steps -> activeIndex steps st = 0%Z.
Proof.
  intros Hout. apply some_has_id_false in Hout.
  unfold activeIndex, findIndex. now rewrite findIndex_from_none.
Qed.

Lemma activeIndex_range steps st :
  (0 <= activeIndex steps st)%Z /\
  (steps <> [] -> activeIndex steps st < Z.of_nat (length steps))%Z.
Proof.
  unfold activeIndex. pose proof (findIndex_range (has_id (activeStepId st)) steps).
  split; [lia|]. intros Hne. destruct steps; [congruence|]. cbn [length] in *. lia.
Qed.

Lemma activeStep_at steps st :
  steps <> [] -> activeStep steps st = at_index steps (activeIndex steps st).
Proof.
  intros Hne. unfold activeStep.
  destruct (activeIndex_range steps st) as [H0 Hlt].
  destruct (at_index_inside steps (activeIndex steps st)) as [s ->]; [|reflexivity].
  split; [exact H0|now apply Hlt].
Qed.

Lemma activeStep_absent steps st :
  activeStepId st ∉ ids steps -> activeStep steps st = head steps.
Proof.
  intros Hout. unfold activeStep. rewrite activeIndex_absent by exact Hout.
  rewrite at_index_zero. now destruct (head steps).
Qed.

Lemma elem_of_ids steps s : s ∈ steps -> Step.id s ∈ ids steps.
Proof. intros Hs. unfold ids. apply list_elem_of_fmap. now exists s. Qed.

Lemma activeStep_elem_of steps st a : activeStep steps st = Some a -> a ∈ steps.
Proof.
  unfold activeStep. destruct (at_index steps (activeIndex steps st)) eqn:E.
  - intros [= <-]. eapply at_index_elem_of, E.
  - apply at_index_elem_of.
Qed.

Lemma setActiveStepId_same st : setActiveStepId (activeStepId st) st = st.
Proof. now destruct st. Qed.

(** ** Navigation *)

Section Navigation.
Implicit Types (steps : list Step.t) (st : WizardState).

Lemma goNext_inside steps st (i : nat) s :
  activeIndex steps st = Z.of_nat i -> steps !! (S i) = Some s ->
  goNext steps st = setActiveStepId (Step.id s) st.
Proof.
  intros Hi Hs. unfold goNext. rewrite Hi.
  pose proof (lookup_lt_Some _ _ _ Hs) as Hlt.
  replace (Z.min _ _) with (Z.of_nat (S i)) by lia.
  now rewrite at_index_nat, Hs.
Qed.

Lemma goNext_last steps st (i : nat) s :
  activeIndex steps st = Z.of_nat i -> steps !! i = Some s ->
  S i = length steps ->
  goNext steps st = setActiveStepId (Step.id s) st.
Proof.
  intros Hi Hs Hlen. unfold goNext. rewrite Hi.
  replace (Z.min _ _) with (Z.of_nat i) by lia.
  now rewrite at_index_nat, Hs.
Qed.

Lemma goBack_inside steps st (i : nat) s :
  activeIndex steps st = Z.of_nat (S i) -> steps !! i = Some s ->
  goBack steps st = setActiveStepId (Step.id s) st.
Proof.
  intros Hi Hs. unfold goBack. rewrite Hi.
  replace (Z.max _ _) with (Z.of_nat i) by lia.
  now rewrite at_index_nat, Hs.
Qed.

Lemma goBack_first steps st :
  activeIndex steps st = 0%Z ->
  goBack steps st =
    match head steps with
    | Some s => setActiveStepId (Step.id s) st
    | None => st
    end.
Proof.
  intros Hi. unfold goBack. rewrite Hi. cbn. now rewrite at_index_zero.
Qed.

(** A state whose identifier is that of the first step: the first step is
    the active one. *)
Lemma activeStep_first s steps st :
  activeStepId st = Step.id s -> activeIndex (s :: steps) st = 0%Z.
Proof.
  intros Hid. unfold activeIndex, findIndex. cbn.
  unfold has_id at 1. now rewrite Hid, String.eqb_refl.
Qed.

(** C3. [goNext] and [goBack] are clamped at the ends of the list.  On
    the last step (where the Next button is disabled) [goNext] leaves the
    active step as it is, a second call changes nothing more, and the
    whole state is unchanged when the stored identifier is one of the
    list; the same holds for [goBack] on the first step. *)
Theorem goNext_goBack_clamped steps st :
  (nextDisabled steps st = true ->
     activeStep steps (goNext steps st) = activeStep steps st /\
     goNext steps (goNext steps st) = goNext steps st /\
     (activeStepId st ∈ ids steps -> goNext steps st = st)) /\
  (backDisabled steps st = true ->
     activeStep steps (goBack steps st) = activeStep steps st /\
     goBack steps (goBack steps st) = goBack steps st /\
     (activeStepId st ∈ ids steps -> goBack steps st = st)).
Proof.
  split.
  - unfold nextDisabled. intros Hlast%Z.eqb_eq.
    destruct (decide (activeStepId st ∈ ids steps)) as [Hin|Hout].
    + destruct (activeIndex_present steps st Hin) as (i & s & Hi & Hs & Hid).
      assert (Hfix : goNext steps st = st).
      { rewrite (goNext_last steps st i s Hi Hs) by lia.
        rewrite Hid. apply setActiveStepId_same. }
      now rewrite !Hfix.
    + pose proof (activeIndex_absent steps st Hout) as H0.
      destruct steps as [|s [|s' steps]]; cbn [length] in Hlast; try lia.
      assert (Hgo : goNext [s] st = setActiveStepId (Step.id s) st).
      { now apply (goNext_last [s] st 0 s). }
      assert (H1 : activeIndex [s] (setActiveStepId (Step.id s) st) = 0%Z).
      { now apply activeStep_first. }
      rewrite Hgo. repeat split.
      * rewrite !activeStep_at by discriminate. now rewrite H0, H1.
      * now rewrite (goNext_last [s] _ 0 s H1).
      * intros Hin; contradiction.
  - unfold backDisabled. intros Hfirst%Z.eqb_eq.
    rewrite (goBack_first steps st Hfirst).
    destruct steps as [|s steps]; [now cbn|]. cbn [head].
    assert (H1 : activeIndex (s :: steps) (setActiveStepId (Step.id s) st) = 0%Z).
    { now apply activeStep_first. }
    repeat split.
    + rewrite !activeStep_at by discriminate. now rewrite Hfirst, H1.
    + now rewrite (goBack_first _ _ H1).
    + intros Hin.
      destruct (activeIndex_present _ st Hin) as (i & x & Hi & Hx & Hid).
      assert (i = 0%nat) by lia; subst i. cbn in Hx. inversion Hx; subst x.
      rewrite Hid. apply setActiveStepId_same.
Qed.

(** C4. On a list whose identifiers are unique, from a step that is
    neither the first nor the last (both buttons enabled), [goNext]
    followed by [goBack] gives the original state back. *)
Theorem goNext_then_goBack steps st :
  NoDup (ids steps) ->
  backDisabled steps st = false -> nextDisabled steps st = false ->
  goBack steps (goNext steps st) = st.
Proof.
  unfold backDisabled, nextDisabled. intros Hnd Hb%Z.eqb_neq Hn%Z.eqb_neq.
  destruct (decide (activeStepId st ∈ ids steps)) as [Hin|Hout];
    [|now rewrite activeIndex_absent in Hb].
  destruct (activeIndex_present steps st Hin) as (i & s & Hi & Hs & Hid).
  pose proof (lookup_lt_Some _ _ _ Hs) as Hlt.
  destruct (lookup_lt_is_Some_2 steps (S i)) as [s' Hs']; [lia|].
  rewrite (goNext_inside steps st i s' Hi Hs').
  rewrite (goBack_inside steps _ i s).
  - cbn. rewrite Hid. now destruct st.
  - unfold activeIndex. cbn [activeStepId setActiveStepId].
    rewrite (findIndex_unique steps (S i) s' Hnd Hs'). lia.
  - exact Hs.
Qed.

End Navigation.

Lemma goNext_goBack_clamped_witness :
  let last := selectStep "verify" initialState in
  (nextDisabled default_steps last = true /\
   goNext default_steps last = last) /\
  (backDisabled default_steps initialState = true /\
   goBack default_steps initialState = initialState).
Proof.
  intros last.
  destruct (goNext_goBack_clamped default_steps last) as [Hnext _].
  destruct (goNext_goBack_clamped default_steps initialState) as [_ Hback].
  split; (split; [reflexivity|]).
  - apply Hnext; [reflexivity|]. apply some_has_id. reflexivity.
  - apply Hback; [reflexivity|]. apply some_has_id. reflexivity.
Defined.

Lemma goNext_then_goBack_witness :
  let mid := selectStep "configure" initialState in
  NoDup (ids default_steps) /\
  backDisabled default_steps mid = false /\
  nextDisabled default_steps mid = false /\
  goBack default_steps (goNext default_steps mid) = mid.
Proof.
  intros mid.
  assert (Hnd : NoDup (ids default_steps)).
  { refine (bool_decide_unpack _ _). vm_compute. exact I. }
  split; [exact Hnd|]. split; [reflexivity|]. split; [reflexivity|].
  apply (goNext_then_goBack default_steps mid Hnd); reflexivity.
Defined.

(** Unique identifiers are needed for C4: with a repeated identifier the
    step found for it is the first one carrying it. *)
Example goNext_then_goBack_repeated_id :
  let step i := Step.mk i "" None "" [] [] None in
  let steps := [step "a"; step "b"; step "a"; step "c"] in
  let st := selectStep "b" initialState in
  backDisabled steps st = false /\ nextDisabled steps st = false /\
  activeStepId (goBack steps (goNext steps st)) = "a".
Proof. repeat split. Qed.

(** ** Selecting a step and reconciling the selection *)

Section Selection.
Implicit Types (steps : list Step.t) (st : WizardState).

Lemma fallbackId_head steps s :
  head steps = Some s -> Step.id s <> "" -> fallbackId steps = Step.id s.
Proof.
  intros Hs Hne. unfold fallbackId. rewrite at_index_zero, Hs.
  unfold truthy_string. destruct (String.eqb_spec (Step.id s) ""); [contradiction|].
  reflexivity.
Qed.


Lemma reconcile_present steps st :
  activeStepId st ∈ ids steps -> reconcileActiveStep steps st = st.
Proof.
  intros Hin%some_has_id. unfold reconcileActiveStep. now rewrite Hin.
Qed.

Lemma reconcile_absent steps st :
  activeStepId st ∉ ids steps ->
  reconcileActiveStep steps st = setActiveStepId (fallbackId steps) st.
Proof.
  intros Hout%some_has_id_false. unfold reconcileActiveStep. now rewrite Hout.
Qed.

Lemma head_id_in steps s : head steps = Some s -> Step.id s ∈ ids steps.
Proof. destruct steps; [discriminate|]. intros [= ->]. cbn. left. Qed.




(** C1, as the code has it.  The click handler stores the identifier it
    is given, whatever it is, and raises no error.  With an identifier
    that is not in the list the step shown becomes the first step of the
    list, and the effect then resets the stored identifier to
    [steps[0]?.id || "overview"]; the completion set is not touched.
    The active step is thus unchanged only when it was the first step
    already. *)
Theorem selectStep_absent steps st i :
  i ∉ ids steps ->
  activeStep steps (selectStep i st) = head steps /\
  reconcileActiveStep steps (selectStep i st) =
    setActiveStepId (fallbackId steps) st /\
  completed (reconcileActiveStep steps (selectStep i st)) = completed st /\
  (activeStep steps (selectStep i st) = activeStep steps st <->
   activeStep steps st = head steps).
Proof.
  intros Hout.
  assert (Hstep : activeStep steps (selectStep i st) = head steps).
  { now apply activeStep_absent. }
  assert (Hrec : reconcileActiveStep steps (selectStep i st) =
                 setActiveStepId (fallbackId steps) st).
  { now rewrite reconcile_absent. }
  repeat split; [exact Hstep|exact Hrec|now rewrite Hrec| |]; rewrite Hstep; congruence.
Qed.

Lemma selectStep_absent_witness :
  let st := selectStep "build" initialState in
  ("bogus" ∉ ids default_steps) /\
  (Step.id <$> activeStep default_steps (selectStep "bogus" st)) = Some "overview" /\
  reconcileActiveStep default_steps (selectStep "bogus" st) = initialState.
Proof.
  intros st.
  assert (Hout : "bogus" ∉ ids default_steps).
  { apply some_has_id_false. reflexivity. }
  destruct (selectStep_absent default_steps st "bogus" Hout) as (Hstep & Hrec & _).
  split; [exact Hout|]. split; [now rewrite Hstep|now rewrite Hrec].
Defined.

(** The claim C1 as it is written fails: on the program's own step list,
    with the fifth step active, selecting an identifier that is not in
    the list makes the first step the active one. *)
Lemma selectStep_counterexample :
  let st := selectStep "build" initialState in
  ("bogus" ∉ ids default_steps) /\
  (Step.id <$> activeStep default_steps st) = Some "build" /\
  (Step.id <$> activeStep default_steps (selectStep "bogus" st)) = Some "overview" /\
  activeStepId (reconcileActiveStep default_steps (selectStep "bogus" st)) = "overview".
Proof.
  cbv zeta. repeat split. apply some_has_id_false. reflexivity.
Qed.

(** With an identifier of the list the effect keeps what the handler has
    stored, and the active step carries that identifier. *)
Lemma selectStep_present steps st i :
  i ∈ ids steps ->
  reconcileActiveStep steps (selectStep i st) = setActiveStepId i st /\
  exists s, activeStep steps (selectStep i st) = Some s /\ Step.id s = i.
Proof.
  intros Hin. split; [now apply reconcile_present|].
  destruct (activeIndex_present steps (selectStep i st) Hin) as (k & s & Hk & Hs & Hid).
  exists s. split; [|exact Hid].
  unfold activeStep. now rewrite Hk, at_index_nat, Hs.
Qed.

End Selection.

(** ** The completion set *)

Section Completion.
Implicit Types (steps : list Step.t) (st : WizardState) (X : gset string).

Lemma remove_then_add X (a : string) : a ∈ X -> (X ∖ {[ a ]}) ∪ {[ a ]} = X.
Proof.
  intros Ha. apply set_eq. intros x.
  rewrite elem_of_union, elem_of_difference, elem_of_singleton.
  destruct (decide (x = a)) as [->|Hne]; tauto.
Qed.

Lemma add_then_remove X (a : string) : a ∉ X -> (X ∪ {[ a ]}) ∖ {[ a ]} = X.
Proof.
  intros Ha. apply set_eq. intros x.
  rewrite elem_of_difference, elem_of_union, elem_of_singleton.
  destruct (decide (x = a)) as [->|Hne]; tauto.
Qed.

(** The active step only depends on the stored identifier. *)
Lemma activeStep_setCompleted steps st X :
  activeStep steps (setCompleted X st) = activeStep steps st.
Proof. reflexivity. Qed.

(** C5. With [a] the active step, one call of [toggleComplete] returns
    normally, keeps the selection, removes the identifier of [a] from the
    completion set when it is there and adds it otherwise, leaving the
    membership of every other identifier as it was; a second call gives
    the original state back. *)
Theorem toggleComplete_involution steps st a :
  activeStep steps st = Some a ->
  exists st',
    toggleComplete steps st = Normal st' /\
    activeStepId st' = activeStepId st /\
    (Step.id a ∈ completed st -> completed st' = completed st ∖ {[ Step.id a ]}) /\
    (Step.id a ∉ completed st -> completed st' = completed st ∪ {[ Step.id a ]}) /\
    (Step.id a ∈ completed st' <-> Step.id a ∉ completed st) /\
    (forall i, i <> Step.id a -> i ∈ completed st' <-> i ∈ completed st) /\
    toggleComplete steps st' = Normal st.
Proof.
  intros Ha. unfold toggleComplete at 1. rewrite Ha.
  eexists. split; [reflexivity|]. split; [reflexivity|].
  unfold toggleComplete. rewrite activeStep_setCompleted, Ha.
  destruct st as [act X]. cbn [completed activeStepId setCompleted].
  destruct (decide (Step.id a ∈ X)) as [Hin|Hout].
  - repeat split; try tauto; try set_solver.
    destruct (decide (Step.id a ∈ X ∖ {[ Step.id a ]})) as [Hin'|_]; [set_solver|].
    unfold setCompleted; cbn. now rewrite remove_then_add.
  - repeat split; try tauto; try set_solver.
    destruct (decide (Step.id a ∈ X ∪ {[ Step.id a ]})) as [_|Hout']; [|set_solver].
    unfold setCompleted; cbn. now rewrite add_then_remove.
Qed.

Lemma toggleComplete_involution_witness :
  exists a st',
    activeStep default_steps initialState = Some a /\
    toggleComplete default_steps initialState = Normal st' /\
    completed st' = {[ "overview" ]} /\
    toggleComplete default_steps st' = Normal initialState.
Proof.
  destruct (activeStep default_steps initialState) as [a|] eqn:Ha;
    [|discriminate Ha].
  destruct (toggleComplete_involution default_steps initialState a Ha)
    as (st' & Hst' & _ & _ & Hadd & _ & _ & Hback).
  exists a, st'. split; [reflexivity|]. split; [exact Hst'|]. split; [|exact Hback].
  rewrite Hadd by set_solver.
  injection Ha as <-. cbn. set_solver.
Defined.

(** Without an active step, that is on an empty list, the handler throws. *)
Lemma toggleComplete_empty st : toggleComplete [] st = Throw TypeError.
Proof. reflexivity. Qed.

(** A toggle changes the size of the completion set by one. *)
Lemma toggleComplete_size steps st a st' :
  activeStep steps st = Some a -> toggleComplete steps st = Normal st' ->
  size (completed st') =
    if decide (Step.id a ∈ completed st)
    then (size (completed st) - 1)%nat
    else S (size (completed st)).
Proof.
  intros Ha. unfold toggleComplete. rewrite Ha. intros [= <-]. cbn.
  destruct (decide (Step.id a ∈ completed st)) as [Hin|Hout].
  - rewrite size_difference by set_solver. now rewrite size_singleton.
  - rewrite size_union by set_solver. rewrite size_singleton. lia.
Qed.

(** The completed identifiers stay among those of the list. *)
Lemma toggleComplete_subseteq steps st st' :
  completed st ⊆ list_to_set (ids steps) ->
  toggleComplete steps st = Normal st' ->
  completed st' ⊆ list_to_set (ids steps).
Proof.
  intros Hsub. unfold toggleComplete.
  destruct (activeStep steps st) as [a|] eqn:Ha; [|discriminate].
  intros [= <-]. cbn.
  assert (Hin : Step.id a ∈ ids steps).
  { eapply elem_of_ids, activeStep_elem_of, Ha. }
  destruct (decide (Step.id a ∈ completed st)); set_solver.
Qed.

End Completion.

(** ** Configuration *)

Lemma lower_ascii_t c : lower_ascii c = "t"%char -> c = "t"%char \/ c = "T"%char.
Proof.
  destruct c as [[] [] [] [] [] [] [] []]; intros Hc; vm_compute in Hc;
    try discriminate Hc; auto.
Qed.

Lemma lower_ascii_r c : lower_ascii c = "r"%char -> c = "r"%char \/ c = "R"%char.
Proof.
  destruct c as [[] [] [] [] [] [] [] []]; intros Hc; vm_compute in Hc;
    try discriminate Hc; auto.
Qed.

Lemma lower_ascii_u c : lower_ascii c = "u"%char -> c = "u"%char \/ c = "U"%char.
Proof.
  destruct c as [[] [] [] [] [] [] [] []]; intros Hc; vm_compute in Hc;
    try discriminate Hc; auto.
Qed.

Lemma lower_ascii_e c : lower_ascii c = "e"%char -> c = "e"%char \/ c = "E"%char.
Proof.
  destruct c as [[] [] [] [] [] [] [] []]; intros Hc; vm_compute in Hc;
    try discriminate Hc; auto.
Qed.

(** The strings that [toLowerCase] sends to ["true"]. *)
Lemma toLowerCase_true s :
  toLowerCase s = "true" <->
  In s ["true"; "truE"; "trUe"; "trUE"; "tRue"; "tRuE"; "tRUe"; "tRUE";
        "True"; "TruE"; "TrUe"; "TrUE"; "TRue"; "TRuE"; "TRUe"; "TRUE"].
Proof.
  split.
  - destruct s as [|a [|b [|c [|d [|x s]]]]]; cbn [toLowerCase]; try discriminate.
    intros [= Ha Hb Hc Hd].
    destruct (lower_ascii_t a Ha), (lower_ascii_r b Hb),
      (lower_ascii_u c Hc), (lower_ascii_e d Hd); subst; cbn; tauto.
  - cbn. intros Hin. repeat (destruct Hin as [<-|Hin]; [reflexivity|]). contradiction.
Qed.

(** C9. Experiments are enabled exactly when the value of
    [REACT_APP_EXPERIMENTS_ENABLED], taken as the empty string when it is
    absent, is ["true"] once lowered, that is when it is one of the
    sixteen spellings of ["true"] in upper and lower case; an absent
    value, ["1"], ["TRUE "] with a trailing blank and ["yes"] leave them
    disabled. *)
Theorem experimentsEnabled_iff env :
  (experimentsEnabled env = true <->
   toLowerCase (or_empty (REACT_APP_EXPERIMENTS_ENABLED env)) = "true") /\
  (experimentsEnabled env = true <->
   exists s, REACT_APP_EXPERIMENTS_ENABLED env = Some s /\
     In s ["true"; "truE"; "trUe"; "trUE"; "tRue"; "tRuE"; "tRUe"; "tRUE";
           "True"; "TruE"; "TrUe"; "TrUE"; "TRue"; "TRuE"; "TRUe"; "TRUE"]) /\
  (In (REACT_APP_EXPERIMENTS_ENABLED env)
      [None; Some ""; Some "1"; Some "TRUE "; Some " true"; Some "yes"; Some "false"] ->
   experimentsEnabled env = false).
Proof.
  unfold experimentsEnabled. split; [apply String.eqb_eq|]. split.
  - rewrite String.eqb_eq, toLowerCase_true.
    destruct (REACT_APP_EXPERIMENTS_ENABLED env) as [s|]; cbn [or_empty].
    + split.
      * intros Hin. exists s. split; [reflexivity|].
        destruct s; [cbn in Hin; intuition discriminate|exact Hin].
      * intros (s' & [= <-] & Hin). destruct s; [cbn in Hin; intuition discriminate|exact Hin].
    + split; [cbn; intuition discriminate|]. intros (s' & Hs & _). discriminate.
  - cbn. intros Hin.
    repeat (destruct Hin as [<-|Hin]; [reflexivity|]). contradiction.
Qed.

Lemma experimentsEnabled_iff_witness :
  experimentsEnabled malformed_env = false /\
  experimentsEnabled no_env = false.
Proof.
  split.
  - apply (experimentsEnabled_iff malformed_env). cbn. tauto.
  - apply (experimentsEnabled_iff no_env). cbn. tauto.
Defined.

Section ConfigurationProperties.
Context `{Host}.

Lemma parseJsonEnv_invalid s fallback e :
  JSON_parse s = Throw e -> parseJsonEnv (Some s) fallback = Normal fallback.
Proof.
  intros Hs. unfold parseJsonEnv, falsy_env, or_empty.
  destruct (truthy_string s); cbn; [now rewrite Hs|reflexivity].
Qed.

Lemma parseJsonEnv_normal v fallback : exists r, parseJsonEnv v fallback = Normal r.
Proof.
  unfold parseJsonEnv. destruct (falsy_env v); [now eexists|].
  destruct (JSON_parse (or_empty v)); now eexists.
Qed.

Lemma safeUrl_eq v fallback :
  safeUrl v fallback = Normal (if valid_url v then or_empty v else fallback).
Proof.
  destruct v as [s|]; [|reflexivity].
  unfold safeUrl, valid_url, falsy_env, or_empty.
  destruct (truthy_string s); [|reflexivity]. cbn.
  now destruct (URL_new s).
Qed.

Lemma safeUrl_invalid s fallback e :
  URL_new s = Throw e -> safeUrl (Some s) fallback = Normal fallback.
Proof.
  intros Hs. rewrite safeUrl_eq. unfold valid_url. rewrite Hs.
  now rewrite andb_false_r.
Qed.

Lemma truthy_kept v :
  truthy_string (if valid_url v then or_empty v else "") = valid_url v.
Proof.
  destruct v as [s|]; [|reflexivity]. unfold valid_url, or_empty.
  destruct (truthy_string s) eqn:Hs; [|reflexivity]. cbn.
  now destruct (URL_new s).
Qed.

(** The step list is built, with the seven identifiers, whenever reading
    [showAdvanced] off the flags does not throw. *)
Lemma steps_ids flags exp env :
  flags <> Null ->
  exists l, steps flags exp env = Normal l /\
    ids l = ["overview"; "setup"; "sources"; "configure"; "build"; "flash"; "verify"].
Proof.
  intros Hflags. unfold steps. rewrite !safeUrl_eq. cbn.
  destruct flags; try contradiction; cbn; eexists; split; reflexivity.
Qed.

Lemma steps_linkLabels flags exp env l :
  steps flags exp env = Normal l ->
  linkLabels l =
    (if valid_url (REACT_APP_FRONTEND_URL env) then ["Frontend URL"] else []) ++
    (if valid_url (REACT_APP_BACKEND_URL env) then ["Backend URL"] else []) ++
    (if valid_url (REACT_APP_API_BASE env) then ["API Base"] else []).
Proof.
  unfold steps. rewrite !safeUrl_eq. cbn.
  destruct (get flags "showAdvanced"); cbn; [|discriminate].
  intros [= <-]. unfold linkLabels. cbn. rewrite !truthy_kept.
  destruct (valid_url (REACT_APP_FRONTEND_URL env)),
    (valid_url (REACT_APP_BACKEND_URL env)),
    (valid_url (REACT_APP_API_BASE env)); reflexivity.
Qed.

(** C8. Malformed optional configuration does not propagate an error.
    A flag text on which [JSON.parse] throws gives the empty object for
    the flags, and the step list is then built; neither [parseJsonEnv] nor
    [safeUrl] ever throws; and in a step list that has been built, a link
    whose configuration value is not kept by [safeUrl] (absent, empty, or
    rejected by the [URL] constructor) is not in any link list. *)
Theorem malformed_configuration_never_propagates env :
  (forall s e,
     REACT_APP_FEATURE_FLAGS env = Some s -> JSON_parse s = Throw e ->
     featureFlags env = Normal (Object []) /\
     exists l, App_steps env = Normal l) /\
  (forall v fallback, exists r, parseJsonEnv v fallback = Normal r) /\
  (forall v fallback, exists r, safeUrl v fallback = Normal r) /\
  (forall s fallback e,
     URL_new s = Throw e -> safeUrl (Some s) fallback = Normal fallback) /\
  (forall flags exp l,
     steps flags exp env = Normal l ->
     (valid_url (REACT_APP_FRONTEND_URL env) = false ->
      ~ In "Frontend URL" (linkLabels l)) /\
     (valid_url (REACT_APP_BACKEND_URL env) = false ->
      ~ In "Backend URL" (linkLabels l)) /\
     (valid_url (REACT_APP_API_BASE env) = false ->
      ~ In "API Base" (linkLabels l))).
Proof.
  split; [|split; [|split; [|split]]].
  - intros s e Hs He.
    assert (Hflags : featureFlags env = Normal (Object [])).
    { unfold featureFlags. rewrite Hs. now apply parseJsonEnv_invalid with e. }
    split; [exact Hflags|]. unfold App_steps. rewrite Hflags. cbn.
    destruct (steps_ids (Object []) (experimentsEnabled env) env) as (l & Hl & _);
      [discriminate|]. now exists l.
  - apply parseJsonEnv_normal.
  - intros v fallback. rewrite safeUrl_eq. now eexists.
  - apply safeUrl_invalid.
  - intros flags exp l Hl. rewrite (steps_linkLabels flags exp env l Hl).
    repeat split; intros ->;
      destruct (valid_url (REACT_APP_FRONTEND_URL env)),
        (valid_url (REACT_APP_BACKEND_URL env)),
        (valid_url (REACT_APP_API_BASE env)); cbn;
      intuition discriminate.
Qed.

(** With [null] for the flags, reading [showAdvanced] off them throws. *)
Lemma steps_null exp env : steps Null exp env = Throw TypeError.
Proof. unfold steps. rewrite !safeUrl_eq. reflexivity. Qed.

(** C10, at the input on which the code departs from it.  The flag text
    [null] is JSON, so [parseJsonEnv] returns the [null] that [JSON.parse]
    gives for it; building the step list then throws a [TypeError], and
    there is no list of seven identifiers.  [steps_ids] above is the
    claim for all other flags. *)
Theorem App_steps_null env :
  JSON_parse "null" = Normal Null ->
  REACT_APP_FEATURE_FLAGS env = Some "null" ->
  App_steps env = Throw TypeError.
Proof.
  intros Hparse Henv. unfold App_steps, featureFlags, parseJsonEnv.
  rewrite Henv. cbn. rewrite Hparse. cbn. apply steps_null.
Qed.

(** The advanced section of the fourth step is there exactly when the
    flag is truthy or experiments are enabled; the other steps keep their
    headings. *)
Lemma steps_advanced flags exp env l showAdvanced :
  get flags "showAdvanced" = Normal showAdvanced ->
  steps flags exp env = Normal l ->
  headingsOf "configure" l =
    "Choose target: Raspberry Pi 4" ::
    (if truthy showAdvanced || exp then ["Advanced options (optional)"] else []).
Proof.
  intros Hget. unfold steps. rewrite !safeUrl_eq. cbn. rewrite Hget. cbn.
  intros [= <-]. unfold headingsOf. cbn.
  now destruct (truthy showAdvanced || exp).
Qed.

End ConfigurationProperties.

Lemma App_steps_null_witness :
  @JSON_parse sample_host "null" = Normal Null /\
  @App_steps sample_host null_flags_env = Throw TypeError.
Proof.
  split; [reflexivity|].
  apply (@App_steps_null sample_host null_flags_env); reflexivity.
Defined.

Lemma malformed_configuration_never_propagates_witness :
  @JSON_parse sample_host "{showAdvanced" = Throw SyntaxError /\
  @featureFlags sample_host malformed_env = Normal (Object []) /\
  @valid_url sample_host (REACT_APP_FRONTEND_URL malformed_env) = false /\
  exists l, @App_steps sample_host malformed_env = Normal l /\
            ~ In "Frontend URL" (linkLabels l).
Proof.
  destruct (@malformed_configuration_never_propagates sample_host malformed_env)
    as (Hflags & _ & _ & _ & Hlinks).
  destruct (Hflags "{showAdvanced" SyntaxError eq_refl eq_refl) as [Hf _].
  split; [reflexivity|]. split; [exact Hf|]. split; [reflexivity|].
  eexists. split; [reflexivity|].
  eapply (Hlinks (Object []) false); reflexivity.
Defined.

(** ** Binary64 arithmetic of the progress percentage *)

Section Binary64.

Lemma digits2_pos_iter_xO p k :
  digits2_pos (Pos.iter xO p k) = (digits2_pos p + k)%positive.
Proof.
  induction k as [|k IH] using Pos.peano_ind.
  - cbn. now rewrite Pos.add_1_r.
  - rewrite Pos.iter_succ. cbn. rewrite IH. now rewrite Pos.add_succ_r.
Qed.

Lemma binary_round_aux_canonical s m e :
  Zpos (digits2_pos m) = 53%Z -> (-1074 <= e <= 971)%Z ->
  binary_round_aux prec emax s (Zpos m) e loc_Exact = S754_finite s m e.
Proof.
  intros Hd He. unfold binary_round_aux, shr_fexp.
  cbn [Zdigits2 shr_record_of_loc]. rewrite Hd.
  assert (Hn : (fexp prec emax (53 + e) - e = 0)%Z).
  { unfold fexp, emin, prec, emax. lia. }
  rewrite Hn. cbn [shr shr_m loc_of_shr_record round_nearest_even Zdigits2 shr_record_of_loc].
  rewrite Hd, Hn. cbn [shr shr_m].
  destruct (Z.leb_spec e (emax - prec)); [reflexivity|]. unfold emax, prec in *. lia.
Qed.

Lemma digits2_pos_bound p : (Zpos p < 2 ^ 53)%Z -> (Zpos (digits2_pos p) <= 53)%Z.
Proof.
  intros Hp.
  assert (H2 : (2 ^ Zpos (digits2_pos p) <= 2 * Zpos p)%Z).
  { clear Hp. induction p as [p IH|p IH|]; cbn [digits2_pos].
    - rewrite Pos2Z.inj_succ, Z.pow_succ_r by lia. lia.
    - rewrite Pos2Z.inj_succ, Z.pow_succ_r by lia. lia.
    - cbn. lia. }
  destruct (Z.le_gt_cases (Zpos (digits2_pos p)) 53) as [Hle|Hgt]; [exact Hle|].
  assert (2 ^ 54 <= 2 ^ Zpos (digits2_pos p))%Z by (apply Z.pow_le_mono_r; lia).
  lia.
Qed.

Lemma number_of_Z_pos p :
  (Zpos p < 2 ^ 53)%Z ->
  exists m e, number_of_Z (Zpos p) = S754_finite false m e.
Proof.
  intros Hp. pose proof (digits2_pos_bound p Hp) as Hd.
  unfold number_of_Z, binary_normalize, binary_round, shl_align.
  assert (Hf : fexp prec emax (Zpos (digits2_pos p) + 0) = (Zpos (digits2_pos p) - 53)%Z).
  { unfold fexp, emin, prec, emax. lia. }
  rewrite Hf.
  destruct (Zpos (digits2_pos p) - 53 - 0)%Z as [|k|k] eqn:Hk; try lia.
  - eexists _, _. apply binary_round_aux_canonical; lia.
  - eexists _, _. apply binary_round_aux_canonical; [|lia].
    rewrite digits2_pos_iter_xO. lia.
Qed.

Lemma div_same s m e :
  div (S754_finite s m e) (S754_finite s m e) = number_of_Z 1.
Proof.
  unfold div, SFdiv, SFdiv_core_binary. cbn [Zdigits2].
  replace (Zpos (digits2_pos m) + e - (Zpos (digits2_pos m) + e))%Z with 0%Z by lia.
  replace (e - e)%Z with 0%Z by lia.
  change (Z.min (fexp prec emax 0) 0) with (-53)%Z.
  change (0 - -53)%Z with 53%Z. cbv iota.
  rewrite Z.shiftl_mul_pow2 by lia.
  assert (Hq : Z.div_eucl (Zpos m * 2 ^ 53) (Zpos m) = (2 ^ 53, 0)%Z).
  { assert (Hm : Zpos m <> 0%Z) by lia.
    pose proof (Z.div_mul (2 ^ 53) (Zpos m) Hm) as Hdiv.
    pose proof (Z.mod_mul (2 ^ 53) (Zpos m) Hm) as Hmod.
    rewrite (Z.mul_comm (Zpos m)).
    unfold Z.div, Z.modulo in Hdiv, Hmod.
    destruct (Z.div_eucl (2 ^ 53 * Zpos m) (Zpos m)) as [q r].
    now subst. }
  rewrite Hq.
  assert (Hl : new_location (Zpos m) 0 = loc_Exact).
  { unfold new_location. now destruct (Z.even (Zpos m)). }
  rewrite Hl. destruct s; reflexivity.
Qed.

Lemma number_of_nat_pos n :
  (0 < n)%nat -> (Z.of_nat n < 2 ^ 53)%Z ->
  exists m e, number_of_nat n = S754_finite false m e.
Proof.
  intros Hn Hb. unfold number_of_nat.
  destruct (Z.of_nat n) as [|p|p] eqn:Hp; try lia. now apply number_of_Z_pos.
Qed.

(** Nothing completed: [0 / total] is [0]. *)
Lemma percentage_none total :
  (0 < total)%nat -> (Z.of_nat total < 2 ^ 53)%Z ->
  percentage 0 total = number_of_Z 0.
Proof.
  intros Ht Hb. destruct (number_of_nat_pos total Ht Hb) as (m & e & Hm).
  unfold percentage. now rewrite Hm.
Qed.

(** Everything completed: [n / n] is [1], and [1 * 100] is [100]. *)
Lemma percentage_all n :
  (0 < n)%nat -> (Z.of_nat n < 2 ^ 53)%Z ->
  percentage n n = number_of_Z 100.
Proof.
  intros Hn Hb. destruct (number_of_nat_pos n Hn Hb) as (m & e & Hm).
  unfold percentage. rewrite Hm, div_same. now vm_compute.
Qed.

(** An empty list: the division by zero is carried out, and gives NaN for
    [0 / 0] and +Infinity for a positive count. *)
Lemma percentage_of_nothing count :
  (Z.of_nat count < 2 ^ 53)%Z ->
  percentage count 0 = if decide (count = 0%nat) then S754_nan else S754_infinity false.
Proof.
  intros Hb. destruct (decide (count = 0%nat)) as [->|Hne]; [reflexivity|].
  destruct (number_of_nat_pos count ltac:(lia) Hb) as (m & e & Hm).
  unfold percentage. now rewrite Hm.
Qed.

(** On a list of fewer than forty steps binary64 gives the percentage
    rounded exactly. *)
Lemma percentage_exact_small count total :
  (0 < total < 40)%nat -> (count < 40)%nat ->
  percentage count total = number_of_Z (exactPct (Z.of_nat count) (Z.of_nat total)).
Proof.
  intros Ht Hc.
  assert (Hall :
    forallb (fun t =>
      forallb (fun c =>
        bool_decide (percentage c t =
                     number_of_Z (exactPct (Z.of_nat c) (Z.of_nat t))))
        (seq 0 40)) (seq 1 39) = true) by (vm_compute; reflexivity).
  rewrite forallb_forall in Hall.
  specialize (Hall total ltac:(apply in_seq; lia)).
  rewrite forallb_forall in Hall.
  specialize (Hall count ltac:(apply in_seq; lia)).
  now apply bool_decide_eq_true_1 in Hall.
Qed.

(** With forty steps it does not: [23 / 40 * 100] is just below [57.5] in
    binary64, and is rounded down where the exact percentage is rounded
    up. *)
Example percentage_tie_forty :
  percentage 23 40 = number_of_Z 57 /\ exactPct 23 40 = 58%Z.
Proof. split; now vm_compute. Qed.

End Binary64.

(** ** Progress *)

Section Progress.
Implicit Types (steps : list Step.t) (st : WizardState).

Lemma length_ids steps : length (ids steps) = length steps.
Proof. apply length_map. Qed.

(** On a list of unique identifiers, a completion set that holds all of
    them and nothing else has the size of the list. *)
Lemma size_all_completed steps st :
  NoDup (ids steps) ->
  completed st ⊆ list_to_set (ids steps) ->
  (forall i, i ∈ ids steps -> i ∈ completed st) ->
  size (completed st) = length steps.
Proof.
  intros Hnd Hsub Hall.
  assert (Heq : completed st = list_to_set (ids steps)).
  { apply set_eq. intros i. split; [apply Hsub|].
    rewrite elem_of_list_to_set. apply Hall. }
  rewrite Heq, size_list_to_set by exact Hnd. apply length_ids.
Qed.

Lemma length_pos steps : steps <> [] -> (0 < length steps)%nat.
Proof. destruct steps; [congruence|cbn; lia]. Qed.

Lemma progressPct_empty_set steps st :
  steps <> [] -> (Z.of_nat (length steps) < 2 ^ 53)%Z ->
  completed st = ∅ -> progressPct steps st = number_of_Z 0.
Proof.
  intros Hne Hb Hempty. unfold progressPct. rewrite Hempty, size_empty.
  apply percentage_none; [now apply length_pos|exact Hb].
Qed.

Lemma progressPct_all_completed steps st :
  steps <> [] -> (Z.of_nat (length steps) < 2 ^ 53)%Z ->
  NoDup (ids steps) ->
  completed st ⊆ list_to_set (ids steps) ->
  (forall i, i ∈ ids steps -> i ∈ completed st) ->
  progressPct steps st = number_of_Z 100.
Proof.
  intros Hne Hb Hnd Hsub Hall. unfold progressPct.
  rewrite (size_all_completed steps st Hnd Hsub Hall).
  apply percentage_all; [now apply length_pos|exact Hb].
Qed.

(** C6. On a non-empty step list, the progress is 0 when the completion
    set is empty, and 100 when the identifiers of the list are unique and
    the completion set holds every one of them and no other.  The length
    of the list is below 2^53, as the length of every array is. *)
Theorem progressPct_none_and_all steps st :
  steps <> [] -> (Z.of_nat (length steps) < 2 ^ 53)%Z ->
  (completed st = ∅ -> progressPct steps st = number_of_Z 0) /\
  (NoDup (ids steps) ->
   completed st ⊆ list_to_set (ids steps) ->
   (forall i, i ∈ ids steps -> i ∈ completed st) ->
   progressPct steps st = number_of_Z 100).
Proof.
  intros Hne Hb. split.
  - now apply progressPct_empty_set.
  - now apply progressPct_all_completed.
Qed.

Lemma progressPct_none_and_all_witness :
  progressPct default_steps initialState = number_of_Z 0 /\
  progressPct default_steps (allCompleted default_steps initialState) = number_of_Z 100.
Proof.
  assert (Hne : default_steps <> []) by discriminate.
  assert (Hb : (Z.of_nat (length default_steps) < 2 ^ 53)%Z) by (now vm_compute).
  split.
  - now apply (progressPct_none_and_all default_steps initialState Hne Hb).
  - apply (progressPct_none_and_all default_steps _ Hne Hb).
    + refine (bool_decide_unpack _ _). vm_compute. exact I.
    + reflexivity.
    + intros i Hi. unfold allCompleted, setCompleted. cbn [completed].
      now apply elem_of_list_to_set.
Defined.

(** C2, as the code has it.  The division is not guarded.  On an empty
    step list it is carried out and no error is raised: the progress is
    NaN when the completion set is empty and +Infinity otherwise.  On a
    non-empty list the progress is [Math.round((count / total) * 100)] in
    binary64 arithmetic, which for fewer than forty steps and fewer than
    forty completed identifiers is the exact percentage rounded to the
    nearest integer, a tie going up. *)
Theorem progressPct_division steps st :
  (steps = [] -> completed st = ∅ -> progressPct steps st = S754_nan) /\
  (steps = [] -> completed st <> ∅ ->
   (Z.of_nat (size (completed st)) < 2 ^ 53)%Z ->
   progressPct steps st = S754_infinity false) /\
  (steps <> [] -> (length steps < 40)%nat -> (size (completed st) < 40)%nat ->
   progressPct steps st =
     number_of_Z (exactPct (Z.of_nat (size (completed st))) (Z.of_nat (length steps)))).
Proof.
  unfold progressPct. repeat split.
  - intros -> ->. now rewrite size_empty.
  - intros -> Hne Hb. rewrite percentage_of_nothing by exact Hb.
    destruct (decide (size (completed st) = 0%nat)) as [Hz|_]; [|reflexivity].
    now apply size_empty_inv, leibniz_equiv in Hz.
  - intros Hne Hl Hc. apply percentage_exact_small; [|exact Hc].
    split; [now apply length_pos|exact Hl].
Qed.

Lemma progressPct_division_witness :
  progressPct [] initialState = S754_nan /\
  progressPct [] (allCompleted default_steps initialState) = S754_infinity false /\
  progressPct default_steps (setCompleted {[ "overview" ]} initialState) = number_of_Z 14.
Proof.
  split; [|split].
  - now apply (progressPct_division [] initialState).
  - apply (progressPct_division [] (allCompleted default_steps initialState));
      [reflexivity| |now vm_compute].
    intros Hempty. apply (f_equal size) in Hempty. vm_compute in Hempty. discriminate.
  - destruct (progressPct_division default_steps
                (setCompleted {[ "overview" ]} initialState)) as (_ & _ & Hpct).
    assert (Hne : default_steps <> []) by discriminate.
    assert (Hl : (length default_steps < 40)%nat) by (vm_compute; lia).
    assert (Hc : (size (completed (setCompleted {[ "overview" ]} initialState)) < 40)%nat)
      by (vm_compute; lia).
    exact (Hpct Hne Hl Hc).
Defined.

(** The claim C2 as it is written fails on the empty step list: the
    progress is not 0 there but NaN, or +Infinity once something is in
    the completion set. *)
Lemma progressPct_counterexample :
  progressPct [] initialState = S754_nan /\
  progressPct [] initialState <> number_of_Z 0 /\
  progressPct [] (setCompleted {[ "overview" ]} initialState) = S754_infinity false.
Proof. split; [|split]; now vm_compute. Qed.

(** The seven steps of the program: the percentage after each number of
    completed steps. *)
Example percentage_seven_steps :
  map (fun count => percentage count 7) (seq 0 8) =
  map number_of_Z [0; 14; 29; 43; 57; 71; 86; 100]%Z.
Proof. now vm_compute. Qed.

End Progress.

(** ** Reachable states *)

Section Reachable.
Implicit Types (steps : list Step.t) (st : WizardState).

Lemma reconcile_valid steps st :
  fallbackId steps ∈ ids steps ->
  completed st ⊆ list_to_set (ids steps) ->
  valid steps (reconcileActiveStep steps st).
Proof.
  intros Hfb Hsub. destruct (decide (activeStepId st ∈ ids steps)) as [Hin|Hout].
  - rewrite reconcile_present by exact Hin. now split.
  - rewrite reconcile_absent by exact Hout. now split.
Qed.

Lemma goNext_valid steps st : valid steps st -> valid steps (goNext steps st).
Proof.
  intros [Hin Hsub]. unfold goNext.
  destruct (at_index steps _) as [next|] eqn:E; [|now split].
  split; [|exact Hsub]. eapply elem_of_ids, at_index_elem_of, E.
Qed.

Lemma goBack_valid steps st : valid steps st -> valid steps (goBack steps st).
Proof.
  intros [Hin Hsub]. unfold goBack.
  destruct (at_index steps _) as [prev|] eqn:E; [|now split].
  split; [|exact Hsub]. eapply elem_of_ids, at_index_elem_of, E.
Qed.

Lemma toggleComplete_valid steps st st' :
  valid steps st -> toggleComplete steps st = Normal st' -> valid steps st'.
Proof.
  intros [Hin Hsub] Ht. split; [|eapply toggleComplete_subseteq; eassumption].
  unfold toggleComplete in Ht. destruct (activeStep steps st); [|discriminate].
  now injection Ht as <-.
Qed.

(** On a list in which the fallback identifier names a step, as on every
    non-empty list whose first identifier is not the empty string, every
    reachable state is valid: the selected identifier always names a step
    of the list. *)
Lemma reachable_valid steps st :
  fallbackId steps ∈ ids steps -> reachable steps st -> valid steps st.
Proof.
  intros Hfb Hreach. induction Hreach as [|st s _ IH Hs| | |st st' _ IH Ht].
  - apply reconcile_valid; [exact Hfb|]. cbn. set_solver.
  - apply reconcile_valid; [exact Hfb|]. apply IH.
  - now apply goNext_valid.
  - now apply goBack_valid.
  - eapply toggleComplete_valid; eassumption.
Qed.

(** In a valid state there is an active step, it carries the stored
    identifier, and no handler throws. *)
Lemma valid_activeStep steps st :
  valid steps st ->
  exists a, activeStep steps st = Some a /\ Step.id a = activeStepId st.
Proof.
  intros [Hin _].
  destruct (activeIndex_present steps st Hin) as (i & a & Hi & Ha & Hid).
  exists a. split; [|exact Hid]. unfold activeStep. now rewrite Hi, at_index_nat, Ha.
Qed.

Lemma valid_toggleComplete steps st :
  valid steps st -> exists st', toggleComplete steps st = Normal st'.
Proof.
  intros Hv. destruct (valid_activeStep steps st Hv) as (a & Ha & _).
  unfold toggleComplete. rewrite Ha. now eexists.
Qed.

(** The program's own list: every reachable state is valid, and the
    progress of a reachable state in which all seven steps are completed
    is 100. *)
Lemma default_steps_reachable st :
  reachable default_steps st ->
  valid default_steps st /\
  ((forall i, i ∈ ids default_steps -> i ∈ completed st) ->
   progressPct default_steps st = number_of_Z 100).
Proof.
  intros Hreach.
  assert (Hv : valid default_steps st).
  { apply reachable_valid; [|exact Hreach]. apply some_has_id. reflexivity. }
  split; [exact Hv|]. intros Hall.
  apply progressPct_all_completed; [discriminate|now vm_compute| |apply Hv|exact Hall].
  refine (bool_decide_unpack _ _). vm_compute. exact I.
Qed.

End Reachable.

(** ** More on navigation *)

Section NavigationMore.
Implicit Types (steps : list Step.t) (st : WizardState).

Lemma activeIndex_setActiveStepId steps st (i : nat) s :
  NoDup (ids steps) -> steps !! i = Some s ->
  activeIndex steps (setActiveStepId (Step.id s) st) = Z.of_nat i.
Proof.
  intros Hnd Hs. unfold activeIndex. cbn [activeStepId setActiveStepId].
  rewrite (findIndex_unique steps i s Hnd Hs). lia.
Qed.

Lemma activeIndex_nat steps st :
  steps <> [] ->
  exists i : nat, activeIndex steps st = Z.of_nat i /\ (i < length steps)%nat.
Proof.
  intros Hne. destruct (activeIndex_range steps st) as [H0 Hlt].
  specialize (Hlt Hne). exists (Z.to_nat (activeIndex steps st)). lia.
Qed.

Lemma activeIndex_goNext steps st :
  steps <> [] -> NoDup (ids steps) ->
  activeIndex steps (goNext steps st) =
    Z.min (Z.of_nat (length steps) - 1) (activeIndex steps st + 1).
Proof.
  intros Hne Hnd. destruct (activeIndex_nat steps st Hne) as (i & Hi & Hlt).
  destruct (decide (S i = length steps)) as [Hlast|Hmid].
  - destruct (lookup_lt_is_Some_2 steps i Hlt) as [s Hs].
    rewrite (goNext_last steps st i s Hi Hs Hlast).
    rewrite (activeIndex_setActiveStepId steps st i s Hnd Hs). lia.
  - destruct (lookup_lt_is_Some_2 steps (S i)) as [s Hs]; [lia|].
    rewrite (goNext_inside steps st i s Hi Hs).
    rewrite (activeIndex_setActiveStepId steps st (S i) s Hnd Hs). lia.
Qed.

Lemma activeIndex_goBack steps st :
  steps <> [] -> NoDup (ids steps) ->
  activeIndex steps (goBack steps st) = Z.max 0 (activeIndex steps st - 1).
Proof.
  intros Hne Hnd. destruct (activeIndex_nat steps st Hne) as (i & Hi & Hlt).
  destruct i as [|i].
  - rewrite (goBack_first steps st Hi). destruct steps as [|s steps]; [congruence|].
    cbn [head]. rewrite (activeIndex_setActiveStepId (s :: steps) st 0 s Hnd eq_refl).
    lia.
  - destruct (lookup_lt_is_Some_2 steps i) as [s Hs]; [lia|].
    rewrite (goBack_inside steps st i s Hi Hs).
    rewrite (activeIndex_setActiveStepId steps st i s Hnd Hs). lia.
Qed.

(** X1. On a non-empty list with unique identifiers, from any state,
    [goNext] moves the active index up by exactly one, stopping at the
    last index, and [goBack] moves it down by exactly one, stopping at 0.
    A stored identifier that is not in the list counts as index 0. *)
Theorem goNext_goBack_move_by_one steps st :
  steps <> [] -> NoDup (ids steps) ->
  activeIndex steps (goNext steps st) =
    Z.min (Z.of_nat (length steps) - 1) (activeIndex steps st + 1) /\
  activeIndex steps (goBack steps st) = Z.max 0 (activeIndex steps st - 1).
Proof.
  intros Hne Hnd. split; [now apply activeIndex_goNext|now apply activeIndex_goBack].
Qed.

Lemma activeIndex_iter_goNext steps st k :
  steps <> [] -> NoDup (ids steps) ->
  activeIndex steps (Nat.iter k (goNext steps) st) =
    Z.min (Z.of_nat (length steps) - 1) (activeIndex steps st + Z.of_nat k).
Proof.
  intros Hne Hnd. destruct (activeIndex_nat steps st Hne) as (i & Hi & Hlt).
  induction k as [|k IH].
  - cbn. lia.
  - rewrite Nat.iter_succ, activeIndex_goNext, IH by assumption. lia.
Qed.

Lemma activeIndex_iter_goBack steps st k :
  steps <> [] -> NoDup (ids steps) ->
  activeIndex steps (Nat.iter k (goBack steps) st) =
    Z.max 0 (activeIndex steps st - Z.of_nat k).
Proof.
  intros Hne Hnd. destruct (activeIndex_nat steps st Hne) as (i & Hi & Hlt).
  induction k as [|k IH].
  - cbn. lia.
  - rewrite Nat.iter_succ, activeIndex_goBack, IH by assumption. lia.
Qed.

(** X2. On a non-empty list with unique identifiers, [k] presses of
    Next bring the active index to [min (length - 1) (index + k)] and [k]
    presses of Back to [max 0 (index - k)]: neither ever wraps around.
    After [length - 1] presses or more, from any state, the Next button
    (respectively the Back button) is disabled. *)
Theorem goNext_goBack_repeated steps st k :
  steps <> [] -> NoDup (ids steps) ->
  activeIndex steps (Nat.iter k (goNext steps) st) =
    Z.min (Z.of_nat (length steps) - 1) (activeIndex steps st + Z.of_nat k) /\
  activeIndex steps (Nat.iter k (goBack steps) st) =
    Z.max 0 (activeIndex steps st - Z.of_nat k) /\
  ((length steps <= S k)%nat ->
   nextDisabled steps (Nat.iter k (goNext steps) st) = true /\
   backDisabled steps (Nat.iter k (goBack steps) st) = true).
Proof.
  intros Hne Hnd.
  pose proof (activeIndex_iter_goNext steps st k Hne Hnd) as Hn.
  pose proof (activeIndex_iter_goBack steps st k Hne Hnd) as Hb.
  destruct (activeIndex_nat steps st Hne) as (i & Hi & Hlt).
  split; [exact Hn|]. split; [exact Hb|]. intros Hk.
  unfold nextDisabled, backDisabled. rewrite Hn, Hb. split; apply Z.eqb_eq; lia.
Qed.

Lemma goBack_goNext_valid steps st :
  NoDup (ids steps) -> activeStepId st ∈ ids steps ->
  nextDisabled steps st = false -> goBack steps (goNext steps st) = st.
Proof.
  unfold nextDisabled. intros Hnd Hin Hn%Z.eqb_neq.
  destruct (activeIndex_present steps st Hin) as (i & s & Hi & Hs & Hid).
  pose proof (lookup_lt_Some _ _ _ Hs) as Hlt.
  destruct (lookup_lt_is_Some_2 steps (S i)) as [s' Hs']; [lia|].
  rewrite (goNext_inside steps st i s' Hi Hs').
  rewrite (goBack_inside steps _ i s).
  - cbn. rewrite Hid. now destruct st.
  - now apply activeIndex_setActiveStepId.
  - exact Hs.
Qed.

Lemma goNext_goBack_valid steps st :
  NoDup (ids steps) -> backDisabled steps st = false ->
  goNext steps (goBack steps st) = st.
Proof.
  unfold backDisabled. intros Hnd Hb%Z.eqb_neq.
  destruct (decide (activeStepId st ∈ ids steps)) as [Hin|Hout];
    [|now rewrite activeIndex_absent in Hb].
  destruct (activeIndex_present steps st Hin) as (i & s & Hi & Hs & Hid).
  destruct i as [|i]; [cbn in Hi; lia|].
  destruct (lookup_lt_is_Some_2 steps i) as [s' Hs'].
  { apply lookup_lt_Some in Hs. lia. }
  rewrite (goBack_inside steps st i s' Hi Hs').
  rewrite (goNext_inside steps _ i s).
  - cbn. rewrite Hid. now destruct st.
  - now apply activeIndex_setActiveStepId.
  - exact Hs.
Qed.

(** X3. With unique identifiers the two moves undo each other
    wherever the first one moves: [goBack] after [goNext] gives the state
    back when the stored identifier is in the list and the active step
    is not the last one (the first step included), and [goNext] after
    [goBack] gives it back when the active step is not the first one (the
    last step included). *)
Theorem goNext_goBack_round_trips steps st :
  NoDup (ids steps) ->
  (activeStepId st ∈ ids steps -> nextDisabled steps st = false ->
   goBack steps (goNext steps st) = st) /\
  (backDisabled steps st = false -> goNext steps (goBack steps st) = st).
Proof.
  intros Hnd. split; [now apply goBack_goNext_valid|now apply goNext_goBack_valid].
Qed.

Lemma lookup_ids_ne steps (i j : nat) s s' :
  NoDup (ids steps) -> steps !! i = Some s -> steps !! j = Some s' ->
  i <> j -> Step.id s <> Step.id s'.
Proof.
  intros Hnd Hs Hs' Hij Heq. apply Hij.
  eapply NoDup_lookup; [exact Hnd| |]; unfold ids; rewrite list_lookup_fmap.
  - now rewrite Hs.
  - rewrite Hs'. cbn. now rewrite Heq.
Qed.

(** X4. With unique identifiers and a stored identifier of the list,
    the Next button is disabled exactly when [goNext] would leave the
    state as it is, and the Back button exactly when [goBack] would. *)
Theorem disabled_iff_nothing_to_do steps st :
  NoDup (ids steps) -> activeStepId st ∈ ids steps ->
  (nextDisabled steps st = true <-> goNext steps st = st) /\
  (backDisabled steps st = true <-> goBack steps st = st).
Proof.
  intros Hnd Hin.
  destruct (activeIndex_present steps st Hin) as (i & s & Hi & Hs & Hid).
  pose proof (lookup_lt_Some _ _ _ Hs) as Hlt.
  unfold nextDisabled, backDisabled. rewrite !Z.eqb_eq. split; split.
  - intros Hlast. rewrite (goNext_last steps st i s Hi Hs) by lia.
    rewrite Hid. apply setActiveStepId_same.
  - intros Hfix. destruct (decide (S i = length steps)) as [Hl|Hl]; [lia|].
    destruct (lookup_lt_is_Some_2 steps (S i)) as [s' Hs']; [lia|].
    rewrite (goNext_inside steps st i s' Hi Hs') in Hfix.
    apply (f_equal activeStepId) in Hfix. cbn in Hfix.
    exfalso. apply (lookup_ids_ne steps i (S i) s s' Hnd Hs Hs'); [lia|congruence].
  - intros Hfirst. rewrite (goBack_first steps st Hfirst).
    assert (i = 0%nat) by lia; subst i.
    destruct steps as [|x steps]; [discriminate|]. cbn in Hs. injection Hs as ->.
    cbn [head]. rewrite Hid. apply setActiveStepId_same.
  - intros Hfix. destruct i as [|i]; [exact Hi|].
    destruct (lookup_lt_is_Some_2 steps i) as [s' Hs']; [lia|].
    rewrite (goBack_inside steps st i s' Hi Hs') in Hfix.
    apply (f_equal activeStepId) in Hfix. cbn in Hfix.
    exfalso. apply (lookup_ids_ne steps (S i) i s s' Hnd Hs Hs'); [lia|congruence].
Qed.

(** X5. The reconciling effect reaches a fixed point in one run, on
    every list and state: running it on its own result changes nothing,
    also when the fallback ["overview"] is not in the list.  The effect
    depends on [activeStepId], so this is what keeps it from setting the
    state over and over. *)
Theorem reconcileActiveStep_idempotent steps st :
  reconcileActiveStep steps (reconcileActiveStep steps st) =
  reconcileActiveStep steps st.
Proof.
  destruct (decide (activeStepId st ∈ ids steps)) as [Hin|Hout].
  - now rewrite !(reconcile_present steps st Hin).
  - rewrite (reconcile_absent steps st Hout).
    destruct (decide (fallbackId steps ∈ ids steps)) as [Hfb|Hfb].
    + now rewrite reconcile_present.
    + now rewrite reconcile_absent.
Qed.

(** X6. With unique identifiers, clicking the button of a step [s] of
    the list stores the identifier of [s], the effect keeps it, and [s]
    is the active step afterwards. *)
Theorem selectStep_shows_step steps st s :
  NoDup (ids steps) -> s ∈ steps ->
  let st' := reconcileActiveStep steps (selectStep (Step.id s) st) in
  st' = setActiveStepId (Step.id s) st /\
  activeStep steps st' = Some s.
Proof.
  intros Hnd Hs st'. subst st'.
  rewrite reconcile_present by (now apply elem_of_ids).
  split; [reflexivity|].
  apply list_elem_of_lookup in Hs as [i Hi].
  unfold activeStep, selectStep.
  now rewrite (activeIndex_setActiveStepId steps st i s Hnd Hi), at_index_nat, Hi.
Qed.

End NavigationMore.

(** ** More on the step list *)

Section StepsMore.
Context `{Host}.

Lemma steps_get flags exp env l :
  steps flags exp env = Normal l ->
  exists showAdvanced, get flags "showAdvanced" = Normal showAdvanced.
Proof.
  unfold steps. rewrite !safeUrl_eq. cbn.
  destruct (get flags "showAdvanced"); [now eexists|discriminate].
Qed.

(** X7. For every host, every flags value other than [null], every
    switch and every environment, the step list is built; its identifiers
    are the seven of the source in their order, they are unique, the
    fallback identifier is ["overview"], and the effect leaves the
    initial state alone. *)
Theorem steps_identifiers flags exp env :
  flags <> Null ->
  exists l,
    steps flags exp env = Normal l /\
    ids l = ["overview"; "setup"; "sources"; "configure"; "build"; "flash"; "verify"] /\
    NoDup (ids l) /\
    fallbackId l = "overview" /\
    reconcileActiveStep l initialState = initialState.
Proof.
  intros Hflags. destruct (steps_ids flags exp env Hflags) as (l & Hl & Hids).
  exists l. split; [exact Hl|]. split; [exact Hids|].
  assert (Hnd : NoDup (ids l)).
  { rewrite Hids. refine (bool_decide_unpack _ _). vm_compute. exact I. }
  assert (Hfb : fallbackId l = "overview").
  { destruct l as [|s l']; [discriminate|]. injection Hids as Hs _.
    unfold fallbackId. rewrite at_index_zero. cbn [head]. now rewrite Hs. }
  repeat split; [exact Hnd|exact Hfb|].
  apply reconcile_present. rewrite Hids. cbn. left.
Qed.

(** X8. The links of a built step list.  The first step carries the
    front-end link and then the back-end link, the second step the API
    link, each present exactly when [safeUrl] keeps its value and with
    the configured string, unchanged, as its [href]; the other five steps
    have no [links] property. *)
Theorem steps_links flags exp env l :
  steps flags exp env = Normal l ->
  let link_of name v :=
    if valid_url v then [ {| label := name; href := or_empty v |} ] else [] in
  map Step.links l =
    [ Some (link_of "Frontend URL" (REACT_APP_FRONTEND_URL env) ++
            link_of "Backend URL" (REACT_APP_BACKEND_URL env));
      Some (link_of "API Base" (REACT_APP_API_BASE env));
      None; None; None; None; None ].
Proof.
  unfold steps. rewrite !safeUrl_eq. cbn.
  destruct (get flags "showAdvanced"); cbn; [|discriminate].
  intros [= <-]. cbn. rewrite !truthy_kept.
  destruct (valid_url (REACT_APP_FRONTEND_URL env)),
    (valid_url (REACT_APP_BACKEND_URL env)),
    (valid_url (REACT_APP_API_BASE env)); reflexivity.
Qed.

(** X9. The content sections of a built step list.  The fourth step
    has the advanced section exactly when [featureFlags.showAdvanced] is
    truthy or experiments are enabled; the last step has the live status
    section, showing the configured value, exactly when [safeUrl] keeps
    the WebSocket URL; every other section is fixed. *)
Theorem steps_sections flags exp env l :
  steps flags exp env = Normal l ->
  exists showAdvanced,
    get flags "showAdvanced" = Normal showAdvanced /\
    map Step.sections l =
      [ [ {| heading := "Goal"; body := Markup |};
          {| heading := "Recommended prerequisites"; body := Markup |} ];
        [ {| heading := "Install base tools"; body := Markup |};
          {| heading := "Directory layout"; body := Markup |} ];
        [ {| heading := "Clone the image builder repo"; body := Markup |};
          {| heading := "Sync dependencies"; body := Markup |} ];
        {| heading := "Choose target: Raspberry Pi 4"; body := Markup |} ::
          (if truthy showAdvanced || exp
           then [ {| heading := "Advanced options (optional)"; body := Markup |} ]
           else []);
        [ {| heading := "Run the build command"; body := Markup |};
          {| heading := "Expected output"; body := Markup |} ];
        [ {| heading := "Flash the image"; body := Markup |};
          {| heading := "Boot checklist"; body := Markup |} ];
        {| heading := "Validate at runtime"; body := Markup |} ::
          (if valid_url (REACT_APP_WS_URL env)
           then [ {| heading := "Optional: Live status endpoint";
                     body := MarkupShowing (or_empty (REACT_APP_WS_URL env)) |} ]
           else []) ].
Proof.
  unfold steps. rewrite !safeUrl_eq. cbn.
  destruct (get flags "showAdvanced") as [sa|]; cbn; [|discriminate].
  intros [= <-]. exists sa. split; [reflexivity|]. cbn. rewrite truthy_kept.
  now destruct (valid_url (REACT_APP_WS_URL env)).
Qed.

End StepsMore.

(** X10. No configuration value enters the identifier, the title, the
    badge, the description or the tips of a step: two step lists built
    under any two hosts, flags, switches and environments agree on these
    fields, step by step, and have the same length. *)
Theorem steps_static_fields (H1 H2 : Host) flags1 flags2 exp1 exp2 env1 env2 l1 l2 :
  @steps H1 flags1 exp1 env1 = Normal l1 ->
  @steps H2 flags2 exp2 env2 = Normal l2 ->
  map staticFields l1 = map staticFields l2 /\ length l1 = length l2.
Proof.
  unfold steps. rewrite !safeUrl_eq. cbn.
  destruct (get flags1 "showAdvanced"); cbn; [|discriminate].
  destruct (get flags2 "showAdvanced"); cbn; [|discriminate].
  intros [= <-] [= <-]. split; reflexivity.
Qed.

(** ** The rendered view *)

Section Rendering.
Implicit Types (steps : list Step.t) (st : WizardState) (renv : RenderEnv).

Lemma activeStep_nonempty steps st :
  steps <> [] ->
  exists (i : nat) a,
    activeIndex steps st = Z.of_nat i /\ steps !! i = Some a /\
    activeStep steps st = Some a.
Proof.
  intros Hne. destruct (activeIndex_nat steps st Hne) as (i & Hi & Hlt).
  destruct (lookup_lt_is_Some_2 steps i Hlt) as [a Ha].
  exists i, a. repeat split; [exact Hi|exact Ha|].
  unfold activeStep. now rewrite Hi, at_index_nat, Ha.
Qed.

Lemma activeStep_empty st : activeStep [] st = None.
Proof. reflexivity. Qed.

Lemma render_active renv steps st a :
  activeStep steps st = Some a ->
  exists v,
    render renv steps st = Normal v /\
    stepList v = imap (renderStepItem a (completed st)) steps /\
    statusValue v = (size (completed st), length steps) /\
    cardTitle v = Step.title a /\
    cardSections v = Step.sections a /\
    resources v = shown_list (Step.links a) /\
    stepCounter v = ((activeIndex steps st + 1)%Z, length steps) /\
    progressbar_now v = progressPct steps st /\
    toggleLabel v =
      (if bool_decide (Step.id a ∈ completed st)
       then "Mark incomplete" else "Mark complete").
Proof.
  intros Ha. unfold render, isComplete. rewrite Ha. cbn.
  eexists. split; [reflexivity|]. cbn. repeat split.
Qed.

(** X11. The empty step list is the one input without an active
    step.  On it rendering, [isComplete] and [toggleComplete] throw a
    [TypeError], while [goNext] and [goBack] leave the state alone.  On
    every non-empty list, whatever the stored identifier, all three
    return normally, there is one button for each step, and the step
    counter lies between 1 and the length of the list. *)
Theorem no_active_step_iff_empty renv steps st :
  (steps = [] ->
   render renv steps st = Throw TypeError /\
   isComplete steps st = Throw TypeError /\
   toggleComplete steps st = Throw TypeError /\
   goNext steps st = st /\ goBack steps st = st) /\
  (steps <> [] ->
   exists v c st',
     render renv steps st = Normal v /\
     isComplete steps st = Normal c /\
     toggleComplete steps st = Normal st' /\
     length (stepList v) = length steps /\
     (1 <= fst (stepCounter v) <= Z.of_nat (snd (stepCounter v)))%Z).
Proof.
  split.
  - intros ->. repeat split.
  - intros Hne. destruct (activeStep_nonempty steps st Hne) as (i & a & Hi & Ha & Hact).
    destruct (render_active renv steps st a Hact)
      as (v & Hv & Hlist & _ & _ & _ & _ & Hcount & _).
    exists v. unfold isComplete, toggleComplete. rewrite Hact.
    do 2 eexists. repeat split; try reflexivity; try exact Hv.
    + rewrite Hlist. apply length_imap.
    + rewrite Hcount. cbn. lia.
    + rewrite Hcount. cbn. apply lookup_lt_Some in Ha. lia.
Qed.


Lemma checkMarks_imap (f : nat -> Step.t -> StepItem) (q : Step.t -> bool) steps :
  (forall i s,
     match item_index (f i s) with CheckMark => true | Position _ => false end = q s) ->
  checkMarks (imap f steps) = length (List.filter q steps).
Proof.
  unfold checkMarks. revert f. induction steps as [|s steps IH]; intros f Hf; [reflexivity|].
  cbn. rewrite Hf. specialize (IH (f ∘ S) (fun i x => Hf (S i) x)).
  destruct (q s); cbn; now rewrite IH.
Qed.

Lemma filter_ids (X : gset string) steps :
  map Step.id (List.filter (fun s => bool_decide (Step.id s ∈ X)) steps) =
  List.filter (fun i => bool_decide (i ∈ X)) (ids steps).
Proof.
  induction steps as [|s steps IH]; [reflexivity|]. cbn.
  destruct (bool_decide (Step.id s ∈ X)); cbn; now rewrite IH.
Qed.

Lemma completed_count (X : gset string) steps :
  NoDup (ids steps) -> X ⊆ list_to_set (ids steps) ->
  length (List.filter (fun s => bool_decide (Step.id s ∈ X)) steps) = size X.
Proof.
  intros Hnd Hsub.
  rewrite <- (length_map Step.id), filter_ids.
  set (L := List.filter (fun i => bool_decide (i ∈ X)) (ids steps)).
  assert (HL : forall i, i ∈ L <-> i ∈ X).
  { intros i. unfold L. rewrite list_elem_of_In, filter_In, <- list_elem_of_In.
    rewrite bool_decide_eq_true. split; [tauto|]. intros Hi. split; [|exact Hi].
    apply Hsub, elem_of_list_to_set in Hi. exact Hi. }
  assert (HX : X = list_to_set L).
  { apply set_eq. intros i. now rewrite elem_of_list_to_set, HL. }
  rewrite HX, size_list_to_set; [reflexivity|].
  unfold L. now apply NoDup_ListNoDup, List.NoDup_filter, NoDup_ListNoDup.
Qed.

(** X13. With unique identifiers and a completion set within the
    identifiers of the list, the number of step buttons showing a check
    mark is the count of the status card ([completed.size]), and this
    count is at most the number of steps. *)
Theorem check_marks_match_count renv steps st v :
  NoDup (ids steps) -> completed st ⊆ list_to_set (ids steps) ->
  render renv steps st = Normal v ->
  checkMarks (stepList v) = fst (statusValue v) /\
  fst (statusValue v) = size (completed st) /\
  (fst (statusValue v) <= snd (statusValue v))%nat.
Proof.
  intros Hnd Hsub Hv.
  assert (Hne : steps <> []).
  { intros ->. discriminate Hv. }
  destruct (activeStep_nonempty steps st Hne) as (i & a & _ & _ & Hact).
  destruct (render_active renv steps st a Hact) as (v' & Hv' & Hlist & Hstatus & _).
  rewrite Hv in Hv'. injection Hv' as <-.
  rewrite Hlist, Hstatus. cbn [fst snd].
  assert (Hcount : checkMarks (imap (renderStepItem a (completed st)) steps) =
                   size (completed st)).
  { rewrite (checkMarks_imap _ (fun s => bool_decide (Step.id s ∈ completed st))).
    - now apply completed_count.
    - intros k s. cbn. now destruct (bool_decide (Step.id s ∈ completed st)). }
  repeat split; [exact Hcount|].
  rewrite <- (completed_count (completed st) steps Hnd Hsub).
  apply List.filter_length_le.
Qed.

Lemma size_remove (X : gset string) (a : string) :
  a ∈ X -> size X = S (size (X ∖ {[ a ]})).
Proof.
  intros Ha. rewrite size_difference by set_solver. rewrite size_singleton.
  destruct (size X) eqn:Hsize; [|lia].
  apply size_empty_inv in Hsize. set_solver.
Qed.

(** X14. When [toggleComplete] returns, the view rendered next has
    the same card title and step counter, and the toggle button has
    flipped: from "Mark complete" to "Mark incomplete" with the completed
    count one higher, or the other way round with the count one lower. *)
Theorem toggle_flips_button renv steps st st' v :
  toggleComplete steps st = Normal st' ->
  render renv steps st = Normal v ->
  exists v',
    render renv steps st' = Normal v' /\
    cardTitle v' = cardTitle v /\
    stepCounter v' = stepCounter v /\
    ((toggleLabel v = "Mark complete" /\ toggleLabel v' = "Mark incomplete" /\
      fst (statusValue v') = S (fst (statusValue v))) \/
     (toggleLabel v = "Mark incomplete" /\ toggleLabel v' = "Mark complete" /\
      S (fst (statusValue v')) = fst (statusValue v))).
Proof.
  intros Ht Hv. unfold toggleComplete in Ht.
  destruct (activeStep steps st) as [a|] eqn:Hact; [|discriminate].
  injection Ht as <-.
  destruct (render_active renv steps st a Hact)
    as (v0 & Hv0 & _ & Hstatus & Htitle & _ & _ & Hcount & _ & Hlabel).
  rewrite Hv in Hv0. injection Hv0 as <-.
  set (X := completed st) in *.
  set (st' := setCompleted _ st).
  assert (Hact' : activeStep steps st' = Some a) by exact Hact.
  destruct (render_active renv steps st' a Hact')
    as (v' & Hv' & _ & Hstatus' & Htitle' & _ & _ & Hcount' & _ & Hlabel').
  exists v'. split; [exact Hv'|]. split; [congruence|]. split; [now rewrite Hcount, Hcount'|].
  rewrite Hlabel, Hlabel', Hstatus, Hstatus'. cbn [fst]. subst st'. cbn [completed setCompleted].
  destruct (decide (Step.id a ∈ X)) as [Hin|Hout].
  - right. rewrite (bool_decide_eq_true_2 _ Hin).
    rewrite bool_decide_eq_false_2 by set_solver.
    repeat split. symmetry. now apply size_remove.
  - left. rewrite (bool_decide_eq_false_2 _ Hout).
    rewrite bool_decide_eq_true_2 by set_solver.
    repeat split. rewrite size_union by set_solver. rewrite size_singleton. lia.
Qed.

Lemma size_le_length steps (X : gset string) :
  NoDup (ids steps) -> X ⊆ list_to_set (ids steps) -> (size X <= length steps)%nat.
Proof.
  intros Hnd Hsub. rewrite <- (length_ids steps), <- (size_list_to_set (C := gset string)) by exact Hnd.
  now apply subseteq_size.
Qed.

Lemma exactPct_range count total :
  (0 <= count <= total)%Z -> (0 < total)%Z -> (0 <= exactPct count total <= 100)%Z.
Proof.
  intros Hc Ht. unfold exactPct. split.
  - apply Z.div_pos; lia.
  - apply Z.lt_succ_r, Z.div_lt_upper_bound; lia.
Qed.

Lemma progressPct_range steps st :
  steps <> [] -> (length steps < 40)%nat ->
  NoDup (ids steps) -> completed st ⊆ list_to_set (ids steps) ->
  exists p : Z, progressPct steps st = number_of_Z p /\ (0 <= p <= 100)%Z.
Proof.
  intros Hne Hlen Hnd Hsub.
  pose proof (size_le_length steps (completed st) Hnd Hsub) as Hle.
  pose proof (length_pos steps Hne) as Hpos.
  eexists. split.
  - unfold progressPct. apply percentage_exact_small; lia.
  - apply exactPct_range; lia.
Qed.

(** X15. On a list of fewer than forty steps with unique
    identifiers, and a completion set within them, the value of the
    progress bar and of the progress pill is an integer between
    [aria-valuemin] and [aria-valuemax], that is between 0 and 100: the
    exact percentage of the status card's count, rounded. *)
Theorem progress_between_0_and_100 renv steps st v :
  (length steps < 40)%nat ->
  NoDup (ids steps) -> completed st ⊆ list_to_set (ids steps) ->
  render renv steps st = Normal v ->
  exists p : Z,
    progressbar_now v = number_of_Z p /\ pill_progress v = number_of_Z p /\
    (progressbar_min v <= p <= progressbar_max v)%Z /\
    p = exactPct (Z.of_nat (fst (statusValue v))) (Z.of_nat (snd (statusValue v))).
Proof.
  intros Hlen Hnd Hsub Hv.
  assert (Hne : steps <> []).
  { intros ->. discriminate Hv. }
  pose proof (size_le_length steps (completed st) Hnd Hsub) as Hle.
  pose proof (length_pos steps Hne) as Hpos.
  unfold render in Hv. destruct (isComplete steps st) as [c|]; [|discriminate]. cbn in Hv.
  destruct (activeStep steps st) as [a|]; [|discriminate]. injection Hv as <-. cbn.
  eexists. split; [|split; [|split; [|reflexivity]]].
  - unfold progressPct. apply percentage_exact_small; lia.
  - unfold progressPct. apply percentage_exact_small; lia.
  - apply exactPct_range; lia.
Qed.

End Rendering.

(** ** Reachable states, once more *)

Section ReachableMore.
Implicit Types (steps : list Step.t) (st : WizardState).

(** X16. On a list in which the fallback identifier names a step,
    every state reached from the initial one by the effect, by clicks on
    step buttons, by Next and Back and by toggles has a stored identifier
    of the list and a completion set within the identifiers of the list;
    the effect has nothing to do in it, the active step is the one the
    stored identifier names, and [toggleComplete] does not throw. *)
Theorem reachable_states_are_valid steps st :
  fallbackId steps ∈ ids steps -> reachable steps st ->
  (activeStepId st ∈ ids steps) /\
  completed st ⊆ list_to_set (ids steps) /\
  reconcileActiveStep steps st = st /\
  exists a st',
    activeStep steps st = Some a /\ Step.id a = activeStepId st /\
    toggleComplete steps st = Normal st'.
Proof.
  intros Hfb Hreach. pose proof (reachable_valid steps st Hfb Hreach) as Hv.
  destruct (valid_activeStep steps st Hv) as (a & Ha & Hid).
  destruct (valid_toggleComplete steps st Hv) as (st' & Hst').
  destruct Hv as [Hin Hsub].
  split; [exact Hin|]. split; [exact Hsub|]. split; [now apply reconcile_present|].
  now exists a, st'.
Qed.

(** X17. Navigation never touches the completion set: [goNext],
    [goBack], [selectStep] and the effect keep it, so Next and Back leave
    the progress as it is; and [toggleComplete] never moves the
    selection. *)
Theorem navigation_keeps_completion steps st i :
  completed (goNext steps st) = completed st /\
  completed (goBack steps st) = completed st /\
  completed (selectStep i st) = completed st /\
  completed (reconcileActiveStep steps st) = completed st /\
  progressPct steps (goNext steps st) = progressPct steps st /\
  progressPct steps (goBack steps st) = progressPct steps st /\
  (forall st', toggleComplete steps st = Normal st' ->
     activeStepId st' = activeStepId st /\
     activeStep steps st' = activeStep steps st).
Proof.
  assert (Hn : completed (goNext steps st) = completed st).
  { unfold goNext. now destruct (at_index steps _). }
  assert (Hb : completed (goBack steps st) = completed st).
  { unfold goBack. now destruct (at_index steps _). }
  split; [exact Hn|]. split; [exact Hb|]. split; [reflexivity|].
  split; [unfold reconcileActiveStep; now destruct (negb _)|].
  split; [unfold progressPct; now rewrite Hn|].
  split; [unfold progressPct; now rewrite Hb|].
  intros st' Ht. unfold toggleComplete in Ht.
  destruct (activeStep steps st) as [a|] eqn:Ha; [|discriminate].
  injection Ht as <-. split; [reflexivity|exact Ha].
Qed.

End ReachableMore.

Section BuiltList.
Context `{Host}.

Lemma exactPct_seven (c : Z) :
  (0 <= c <= 7)%Z ->
  (exactPct c 7 = 0 <-> c = 0)%Z /\ (exactPct c 7 = 100 <-> c = 7)%Z.
Proof.
  intros Hc. assert (Hcases : (c = 0 \/ c = 1 \/ c = 2 \/ c = 3 \/ c = 4 \/ c = 5 \/ c = 6 \/ c = 7)%Z) by lia.
  destruct Hcases as [->|[->|[->|[->|[->|[->|[->| ->]]]]]]]; vm_compute; split; split; congruence.
Qed.

(** X18. For every host and every configuration under which the
    step list is built, and every state reachable on that list: the view
    is rendered, with seven buttons and as many check marks as completed
    identifiers, and the progress is an integer between 0 and 100 that is
    0 exactly when nothing is completed and 100 exactly when all seven
    steps are. *)
Theorem built_list_reachable flags exp env renv l st :
  steps flags exp env = Normal l -> reachable l st ->
  exists v (p : Z),
    render renv l st = Normal v /\
    length (stepList v) = 7%nat /\
    snd (statusValue v) = 7%nat /\
    checkMarks (stepList v) = size (completed st) /\
    progressbar_now v = number_of_Z p /\
    (0 <= p <= 100)%Z /\
    (p = 0%Z <-> completed st = ∅) /\
    (p = 100%Z <-> size (completed st) = 7%nat).
Proof.
  intros Hl Hreach.
  assert (Hflags : flags <> Null).
  { intros ->. rewrite steps_null in Hl. discriminate. }
  destruct (steps_ids flags exp env Hflags) as (l' & Hl' & Hids).
  rewrite Hl in Hl'. injection Hl' as <-.
  assert (Hlen : length l = 7%nat) by (now rewrite <- length_ids, Hids).
  assert (Hnd : NoDup (ids l)).
  { rewrite Hids. refine (bool_decide_unpack _ _). vm_compute. exact I. }
  assert (Hfb : fallbackId l ∈ ids l).
  { destruct l as [|s l']; [discriminate|]. injection Hids as Hs _.
    rewrite (fallbackId_head (s :: l') s eq_refl) by (rewrite Hs; discriminate).
    now apply head_id_in. }
  destruct (reachable_valid l st Hfb Hreach) as [Hin Hsub].
  pose proof (size_le_length l (completed st) Hnd Hsub) as Hle.
  destruct (activeStep_nonempty l st) as (i & a & _ & _ & Hact); [now destruct l|].
  destruct (render_active renv l st a Hact)
    as (v & Hv & Hlist & Hstatus & _ & _ & _ & _ & Hnow & _).
  exists v, (exactPct (Z.of_nat (size (completed st))) 7).
  split; [exact Hv|]. split; [now rewrite Hlist, length_imap|].
  split; [now rewrite Hstatus|]. split.
  { rewrite Hlist. rewrite (checkMarks_imap _ (fun s => bool_decide (Step.id s ∈ completed st))).
    - now apply completed_count.
    - intros k s. cbn. now destruct (bool_decide (Step.id s ∈ completed st)). }
  split.
  { rewrite Hnow. unfold progressPct. rewrite Hlen.
    apply (percentage_exact_small (size (completed st)) 7); lia. }
  destruct (exactPct_seven (Z.of_nat (size (completed st)))) as [H0 H100]; [lia|].
  split; [apply exactPct_range; lia|]. split.
  - rewrite H0. split.
    + intros Hz. apply leibniz_equiv, size_empty_inv. lia.
    + intros ->. now rewrite size_empty.
  - rewrite H100. lia.
Qed.

End BuiltList.


(** ** The properties above on the step list of the empty environment *)

Lemma default_steps_NoDup : NoDup (ids default_steps).
Proof. refine (bool_decide_unpack _ _). vm_compute. exact I. Qed.

Lemma default_steps_nonempty : default_steps <> [].
Proof. discriminate. Qed.

Lemma goNext_goBack_move_by_one_witness :
  activeIndex default_steps (goNext default_steps initialState) = 1%Z /\
  activeIndex default_steps (goBack default_steps initialState) = 0%Z.
Proof.
  destruct (goNext_goBack_move_by_one default_steps initialState
              default_steps_nonempty default_steps_NoDup) as [Hn Hb].
  split; [rewrite Hn|rewrite Hb]; reflexivity.
Defined.

Lemma goNext_goBack_repeated_witness :
  nextDisabled default_steps (Nat.iter 6 (goNext default_steps) initialState) = true /\
  activeIndex default_steps (Nat.iter 2 (goNext default_steps) initialState) = 2%Z.
Proof.
  destruct (goNext_goBack_repeated default_steps initialState 6
              default_steps_nonempty default_steps_NoDup) as (_ & _ & Hend).
  destruct (goNext_goBack_repeated default_steps initialState 2
              default_steps_nonempty default_steps_NoDup) as (Hn & _ & _).
  split.
  - apply Hend. vm_compute. lia.
  - rewrite Hn. reflexivity.
Defined.

Lemma goNext_goBack_round_trips_witness :
  let last := selectStep "verify" initialState in
  goBack default_steps (goNext default_steps initialState) = initialState /\
  goNext default_steps (goBack default_steps last) = last.
Proof.
  intros last.
  destruct (goNext_goBack_round_trips default_steps initialState default_steps_NoDup)
    as [Hfirst _].
  destruct (goNext_goBack_round_trips default_steps last default_steps_NoDup)
    as [_ Hlast].
  split.
  - apply Hfirst; [|reflexivity]. apply some_has_id. reflexivity.
  - apply Hlast. reflexivity.
Defined.

Lemma disabled_iff_nothing_to_do_witness :
  backDisabled default_steps initialState = true /\
  goBack default_steps initialState = initialState /\
  goNext default_steps initialState <> initialState.
Proof.
  assert (Hin : activeStepId initialState ∈ ids default_steps).
  { apply some_has_id. reflexivity. }
  destruct (disabled_iff_nothing_to_do default_steps initialState
              default_steps_NoDup Hin) as [Hn Hb].
  split; [reflexivity|]. split.
  - apply Hb. reflexivity.
  - intros Hfix. apply Hn in Hfix. discriminate Hfix.
Defined.

Lemma selectStep_shows_step_witness :
  match default_steps !! 1%nat with
  | Some s =>
      Step.id s = "setup" /\
      activeStep default_steps
        (reconcileActiveStep default_steps (selectStep (Step.id s) initialState)) = Some s
  | None => False
  end.
Proof.
  destruct (default_steps !! 1%nat) as [s|] eqn:Hs; [|discriminate Hs].
  split; [now injection Hs as <-|].
  apply (selectStep_shows_step default_steps initialState s default_steps_NoDup).
  eapply list_elem_of_lookup_2, Hs.
Defined.

Lemma steps_identifiers_witness :
  exists l,
    @steps sample_host (Object []) false no_env = Normal l /\
    NoDup (ids l) /\ fallbackId l = "overview".
Proof.
  destruct (@steps_identifiers sample_host (Object []) false no_env)
    as (l & Hl & _ & Hnd & Hfb & _); [discriminate|].
  exists l. now repeat split.
Defined.

Lemma steps_static_fields_witness :
  exists l1 l2,
    @steps sample_host (Object []) false no_env = Normal l1 /\
    @steps sample_host (Boolean true) true malformed_env = Normal l2 /\
    map staticFields l1 = map staticFields l2.
Proof.
  destruct (@steps sample_host (Object []) false no_env) as [l1|] eqn:H1;
    [|discriminate H1].
  destruct (@steps sample_host (Boolean true) true malformed_env) as [l2|] eqn:H2;
    [|discriminate H2].
  exists l1, l2. split; [reflexivity|]. split; [reflexivity|].
  apply (steps_static_fields sample_host sample_host _ _ _ _ _ _ l1 l2 H1 H2).
Defined.

Lemma steps_links_witness :
  exists l,
    @steps sample_host (Object []) false malformed_env = Normal l /\
    map Step.links l =
      [ Some [ {| label := "Backend URL"; href := "https://backend.example" |} ];
        Some []; None; None; None; None; None ].
Proof.
  eexists. split; [reflexivity|].
  exact (@steps_links sample_host (Object []) false malformed_env _ eq_refl).
Defined.

Lemma steps_sections_witness :
  exists l,
    @steps sample_host (Object []) true no_env = Normal l /\
    map length (map Step.sections l) = [2; 2; 2; 2; 2; 2; 1]%nat.
Proof.
  eexists. split; [reflexivity|].
  destruct (@steps_sections sample_host (Object []) true no_env _ eq_refl)
    as (sa & _ & Hsec).
  rewrite Hsec. cbn. now rewrite orb_true_r.
Defined.

Lemma no_active_step_iff_empty_witness :
  render no_renv [] initialState = Throw TypeError /\
  exists v, render no_renv default_steps initialState = Normal v.
Proof.
  destruct (no_active_step_iff_empty no_renv [] initialState) as [Hempty _].
  destruct (no_active_step_iff_empty no_renv default_steps initialState) as [_ Hfull].
  split; [now apply Hempty|].
  destruct (Hfull default_steps_nonempty) as (v & _ & _ & Hv & _). now exists v.
Defined.


Lemma check_marks_match_count_witness :
  exists v,
    render no_renv default_steps (allCompleted default_steps initialState) = Normal v /\
    checkMarks (stepList v) = fst (statusValue v).
Proof.
  eexists. split; [reflexivity|].
  eapply (check_marks_match_count no_renv default_steps
            (allCompleted default_steps initialState));
    [exact default_steps_NoDup|reflexivity|reflexivity].
Defined.

Lemma toggle_flips_button_witness :
  exists st' v v',
    toggleComplete default_steps initialState = Normal st' /\
    render no_renv default_steps initialState = Normal v /\
    render no_renv default_steps st' = Normal v' /\
    toggleLabel v = "Mark complete" /\ toggleLabel v' = "Mark incomplete".
Proof.
  destruct (toggleComplete default_steps initialState) as [st'|] eqn:Ht;
    [|discriminate Ht].
  destruct (render no_renv default_steps initialState) as [v|] eqn:Hv;
    [|discriminate Hv].
  destruct (toggle_flips_button no_renv default_steps initialState st' v Ht Hv)
    as (v' & Hv' & _ & _ & Hcases).
  exists st', v, v'. split; [reflexivity|]. split; [reflexivity|]. split; [exact Hv'|].
  destruct Hcases as [(H1 & H2 & _)|(H1 & _)]; [now split|].
  exfalso. injection Hv as <-. discriminate H1.
Defined.

Lemma progress_between_0_and_100_witness :
  exists v,
    render no_renv default_steps (allCompleted default_steps initialState) = Normal v /\
    progressbar_now v = number_of_Z 100.
Proof.
  destruct (render no_renv default_steps (allCompleted default_steps initialState))
    as [v|] eqn:Hv; [|discriminate Hv].
  destruct (progress_between_0_and_100 no_renv default_steps
              (allCompleted default_steps initialState) v)
    as (p & Hnow & _ & _ & Hp);
    [vm_compute; lia|exact default_steps_NoDup|reflexivity|exact Hv|].
  exists v. split; [reflexivity|]. rewrite Hnow, Hp.
  injection Hv as <-. reflexivity.
Defined.

Lemma reachable_states_are_valid_witness :
  let st := goNext default_steps (reconcileActiveStep default_steps initialState) in
  reachable default_steps st /\ activeStepId st ∈ ids default_steps.
Proof.
  intros st.
  assert (Hreach : reachable default_steps st).
  { apply reach_next, reach_mount. }
  split; [exact Hreach|].
  apply (reachable_states_are_valid default_steps st); [|exact Hreach].
  apply some_has_id. reflexivity.
Defined.

Lemma built_list_reachable_witness :
  exists l v (p : Z),
    @steps sample_host (Object []) false no_env = Normal l /\
    render no_renv l (reconcileActiveStep l initialState) = Normal v /\
    progressbar_now v = number_of_Z p /\ (p = 0%Z <-> ∅ = (∅ : gset string)).
Proof.
  destruct (@steps sample_host (Object []) false no_env) as [l|] eqn:Hl;
    [|discriminate Hl].
  destruct (@built_list_reachable sample_host (Object []) false no_env no_renv l
              (reconcileActiveStep l initialState) Hl (reach_mount l))
    as (v & p & Hv & _ & _ & _ & Hnow & _ & H0 & _).
  exists l, v, p. split; [reflexivity|]. split; [exact Hv|]. split; [exact Hnow|].
  rewrite H0. injection Hl as <-. reflexivity.
Defined.

Lemma navigation_keeps_completion_witness :
  let st := setCompleted {[ "overview" ]} initialState in
  progressPct default_steps (goNext default_steps st) = number_of_Z 14.
Proof.
  intros st.
  destruct (navigation_keeps_completion default_steps st "setup")
    as (_ & _ & _ & _ & Hpct & _).
  rewrite Hpct. reflexivity.
Defined.
